(** * INA229 worker: framing, telemetry decoding and the command queue

    A shallow embedding of the two worker scripts of the repository:

    - the queue-based worker (the unnamed source file [part_000], whose
      header reads [INA229_worker.js]): [createLineReader], [writeCommand],
      [handleQueue], [readSerialLoop], [handleConnect], [handleDisconnect]
      and the scan loop of [readUsbLoop];
    - the earlier worker [ti-ina229/INA229_worker.js]: [readSerialLoop] with
      [processTextBuffer]; its [readUsbLoop] is the same text as the one of
      the queue-based worker.

    All definitions come first; the lemmas and theorems follow. *)

From Stdlib Require Import String Ascii ZArith List Bool Lia.
From Stdlib Require Import Strings.Byte.
Import ListNotations.
Local Open Scope Z_scope.

(* ================================================================== *)
(** * JavaScript strings *)

(** A JavaScript string is a finite sequence of code units; the scripts only
    compare, search, cut and concatenate them, which does not depend on the
    width of a code unit.  The model takes the 8-bit characters of [ascii]
    for code units. *)
Abbreviation jsstring := (list ascii).

Definition js (s : string) : jsstring := list_ascii_of_string s.
Arguments js : simpl never.

Definition CR : ascii := ascii_of_nat 13.
Definition LF : ascii := ascii_of_nat 10.
Definition CRLF : jsstring := [CR; LF].

Definition jsstring_eqb (a b : jsstring) : bool :=
  if list_eq_dec ascii_dec a b then true else false.

(** [s.length] *)
Definition jslength (s : jsstring) : Z := Z.of_nat (length s).

(** [hay.startsWith(needle)] *)
Fixpoint starts_with (needle hay : jsstring) : bool :=
  match needle, hay with
  | [], _ => true
  | _ :: _, [] => false
  | a :: needle', b :: hay' => Ascii.eqb a b && starts_with needle' hay'
  end.

(** [hay.indexOf(needle)]: the first position at which [needle] occurs, or
    [-1]. *)
Fixpoint indexOf (needle hay : jsstring) : Z :=
  if starts_with needle hay then 0
  else match hay with
       | [] => -1
       | _ :: hay' =>
           let r := indexOf needle hay' in
           if r =? -1 then -1 else r + 1
       end.

(** [hay.lastIndexOf(needle)] *)
Fixpoint lastIndexOf (needle hay : jsstring) : Z :=
  match hay with
  | [] => if starts_with needle [] then 0 else -1
  | _ :: hay' =>
      let r := lastIndexOf needle hay' in
      if r =? -1 then (if starts_with needle hay then 0 else -1) else r + 1
  end.

(** [s.slice(start, end)], with the clamping of negative and oversized
    arguments that [String.prototype.slice] performs. *)
Definition slice (s : jsstring) (start end_ : Z) : jsstring :=
  let len := jslength s in
  let from := if start <? 0 then Z.max (len + start) 0 else Z.min start len in
  let to := if end_ <? 0 then Z.max (len + end_) 0 else Z.min end_ len in
  firstn (Z.to_nat (to - from)) (skipn (Z.to_nat from) s).

(** [s.slice(start)] *)
Definition slice_from (s : jsstring) (start : Z) : jsstring :=
  slice s start (jslength s).

(** [s.substring(start, end)]: arguments are clamped to [0 .. length] and
    swapped when out of order. *)
Definition substring (s : jsstring) (start end_ : Z) : jsstring :=
  let len := jslength s in
  let a := Z.min (Z.max start 0) len in
  let b := Z.min (Z.max end_ 0) len in
  let from := Z.min a b in
  let to := Z.max a b in
  firstn (Z.to_nat (to - from)) (skipn (Z.to_nat from) s).

(** [s.replace(pat, by)] with a string pattern: only the first occurrence is
    replaced. *)
Definition replace_first (pat by_ s : jsstring) : jsstring :=
  let i := indexOf pat s in
  if i =? -1 then s
  else slice s 0 i ++ by_ ++ slice_from s (i + jslength pat).

(* ================================================================== *)
(** * The line reader of the queue-based worker ([createLineReader]) *)

Module LineReader.

(** The closure state of [createLineReader(reader)]: the private [buffer]
    and the stream behind [reader].  The stream is the list of chunks that
    [reader.read()] still delivers; once the list is empty every further
    [read()] answers [{done: true}]. *)
Record t := mk { buffer : jsstring; reader : list jsstring }.

(** [createLineReader(reader)]: the buffer starts empty. *)
Definition createLineReader (chunks : list jsstring) : t := mk [] chunks.

(** One call of [readLine()].  The [while (true)] loop either returns or
    consumes one chunk, so it is a recursion on the remaining chunks.
    [None] is JavaScript's [null]. *)
Fixpoint readLine_loop (buffer : jsstring) (reader : list jsstring)
  : option jsstring * t :=
  let newlineIndex := indexOf CRLF buffer in
  if negb (newlineIndex =? -1) then
    let line := slice buffer 0 newlineIndex in
    (Some line, mk (slice_from buffer (newlineIndex + 2)) reader)
  else
    match reader with
    | [] =>
        (* done *)
        if jslength buffer >? 0 then (Some buffer, mk [] [])
        else (None, mk buffer [])
    | value :: reader' => readLine_loop (buffer ++ value) reader'
    end.

Definition readLine (r : t) : option jsstring * t :=
  readLine_loop (buffer r) (reader r).

(** The lines a consumer obtains by calling [readLine()] until it answers
    [null], as [readSerialLoop] does.  [None] means the fuel ran out before
    [null] was seen. *)
Fixpoint drain (fuel : nat) (r : t) : option (list jsstring) :=
  match fuel with
  | O => None
  | S fuel' =>
      match readLine r with
      | (None, _) => Some []
      | (Some line, r') =>
          match drain fuel' r' with
          | Some lines => Some (line :: lines)
          | None => None
          end
      end
  end.

(** A bound on the number of [readLine()] calls: every call that returns a
    line removes characters from the buffer or chunks from the stream. *)
Definition size (r : t) : nat :=
  (length (buffer r) + length (concat (reader r)) + length (reader r))%nat.

(** All lines emitted for a stream of chunks. *)
Definition emitted (chunks : list jsstring) : option (list jsstring) :=
  let r := createLineReader chunks in drain (S (S (size r))) r.

(** The text of a sequence of lines, each followed by the delimiter. *)
Fixpoint terminated (lines : list jsstring) : jsstring :=
  match lines with
  | [] => []
  | l :: lines' => l ++ CRLF ++ terminated lines'
  end.

(** A text [s] holds no delimiter. *)
Definition no_delimiter (s : jsstring) : Prop := indexOf CRLF s = -1.

(** The final, unterminated line of a text: absent when empty. *)
Definition final_line (rest : jsstring) : list jsstring :=
  match rest with [] => [] | _ => [rest] end.

End LineReader.

(* ================================================================== *)
(** * The telemetry decoder (scan loop of [readUsbLoop])

    The loop is the same text in both workers. *)

Module Telemetry.

(** The JavaScript numbers the decoder can produce: integers, and the
    infinities that [Number(bigint)] answers beyond the double range. *)
Inductive Number :=
| Finite (z : Z)
| Infinite (negative : bool).

(** [{ address, rawValue }] *)
Record RegisterUpdate := mkUpdate { address : Z; rawValue : Number }.

(** [dataView.byteLength] *)
Definition byteLength (dataView : list byte) : Z :=
  Z.of_nat (length dataView).

(** The number a byte holds. *)
Definition byte_value (b : byte) : Z := Z.of_N (Byte.to_N b).

(** [dataView.getUint8(i)]; [None] is the [RangeError] of an access outside
    the view. *)
Definition getUint8 (dataView : list byte) (i : Z) : option Z :=
  if i <? 0 then None
  else option_map byte_value (nth_error dataView (Z.to_nat i)).

(** [ToInt32]: wrap to a signed 32-bit integer. *)
Definition ToInt32 (x : Z) : Z :=
  let m := x mod 2^32 in
  if m >=? 2^31 then m - 2^32 else m.

(** [x << n] on Numbers: both operands go through 32-bit conversion, the
    shift count is taken modulo 32, the result is a signed 32-bit integer. *)
Definition js_shl (x n : Z) : Z :=
  ToInt32 (Z.shiftl (ToInt32 x) (n mod 32)).

(** [x | y] on Numbers: a signed 32-bit integer. *)
Definition js_or (x y : Z) : Z :=
  ToInt32 (Z.lor (ToInt32 x) (ToInt32 y)).

(** [x << n] and [x | y] on BigInts are exact. *)
Definition big_shl (x n : Z) : Z := Z.shiftl x n.
Definition big_or (x y : Z) : Z := Z.lor x y.

(** The double nearest to a natural number [m], ties to the even
    significand: numbers of at most 53 bits are exact, longer ones keep
    their 53 leading bits. *)
Definition round_to_double (m : Z) : Z :=
  let bits := Z.log2 m + 1 in
  if bits <=? 53 then m
  else
    let e := bits - 53 in
    let q := Z.shiftr m e in
    let r := m - Z.shiftl q e in
    let half := Z.shiftl 1 (e - 1) in
    let q' := if (half <? r) || ((r =? half) && Z.odd q) then q + 1 else q in
    Z.shiftl q' e.

(** [Number(v)] for a BigInt [v]. *)
Definition Number_of_BigInt (v : Z) : Number :=
  let m := round_to_double (Z.abs v) in
  if m <? 2^1024 then Finite (Z.sgn v * m) else Infinite (v <? 0).

(** [for (let i = start; i < start + n; i++) acc = body(i, acc)], where the
    body may throw. *)
Fixpoint for_range {A} (n : nat) (i : Z) (body : Z -> A -> option A) (acc : A)
  : option A :=
  match n with
  | O => Some acc
  | S n' =>
      match body i acc with
      | Some acc' => for_range n' (i + 1) body acc'
      | None => None
      end
  end.

(** The value assembly: the BigInt loop for more than four bytes, the
    Number loop otherwise. *)
Definition assemble (dataView : list byte) (offset registerSize : Z)
  : option Number :=
  if registerSize >? 4 then
    option_map Number_of_BigInt
      (for_range (Z.to_nat registerSize) 0
         (fun i rawValue =>
            match getUint8 dataView (offset + 4 + i) with
            | Some b => Some (big_or (big_shl rawValue 8) b)
            | None => None
            end) 0)
  else
    option_map Finite
      (for_range (Z.to_nat registerSize) 0
         (fun i rawValue =>
            match getUint8 dataView (offset + 4 + i) with
            | Some b => Some (js_or (js_shl rawValue 8) b)
            | None => None
            end) 0).

(** How one pass through the body of the [while] loop ends. *)
Inductive Completion :=
| Continue (offset : Z) (updates : list RegisterUpdate)
| Break (updates : list RegisterUpdate)
| RangeError.

(** The body of [while (offset < dataView.byteLength)]. *)
Definition scan_body (dataView : list byte) (offset : Z)
    (updates : list RegisterUpdate) : Completion :=
  match getUint8 dataView offset with
  | None => RangeError
  | Some frameID =>
      if negb (frameID =? 0) then Continue (offset + 1) updates
      else if offset + 4 >? byteLength dataView then Break updates
      else
        match getUint8 dataView (offset + 2),
              getUint8 dataView (offset + 3) with
        | Some address, Some registerSize =>
            if offset + 4 + registerSize >? byteLength dataView
            then Break updates
            else
              match assemble dataView offset registerSize with
              | Some rawValue =>
                  Continue (offset + 4 + registerSize)
                           (updates ++ [mkUpdate address rawValue])
              | None => RangeError
              end
        | _, _ => RangeError
        end
  end.

(** What the scan of one transfer ends with: the updates, or an exception
    that leaves the loop for the [catch] of [readUsbLoop]. *)
Inductive Outcome :=
| Updates (updates : list RegisterUpdate)
| Thrown.

(** The [while] loop; [None] means the fuel ran out. *)
Fixpoint scan_loop (fuel : nat) (dataView : list byte) (offset : Z)
    (updates : list RegisterUpdate) : option Outcome :=
  match fuel with
  | O => None
  | S fuel' =>
      if offset <? byteLength dataView then
        match scan_body dataView offset updates with
        | Continue offset' updates' => scan_loop fuel' dataView offset' updates'
        | Break updates' => Some (Updates updates')
        | RangeError => Some Thrown
        end
      else Some (Updates updates)
  end.

(** The scan of one transfer: [updates = []], [offset = 0]. *)
Definition decode (dataView : list byte) : option Outcome :=
  scan_loop (S (length dataView)) dataView 0 [].

(** The message posted for one transfer. *)
Inductive BulkMessage :=
| processed_bulk_data (payload : list RegisterUpdate).

Definition post_updates (updates : list RegisterUpdate) : list BulkMessage :=
  if Z.of_nat (length updates) >? 0 then [processed_bulk_data updates] else [].

(** The two value loops read as folds over the value bytes. *)
Definition big_value (vs : list byte) : Z :=
  fold_left (fun a b => big_or (big_shl a 8) (byte_value b)) vs 0.

Definition int32_value (vs : list byte) : Z :=
  fold_left (fun a b => js_or (js_shl a 8) (byte_value b)) vs 0.

Definition value_of_bytes (vs : list byte) : Number :=
  if Z.of_nat (length vs) >? 4 then Number_of_BigInt (big_value vs)
  else Finite (int32_value vs).

(** The scan of [dataView] ends normally and its batch holds [u]. *)
Definition emits (dataView : list byte) (u : RegisterUpdate) : Prop :=
  exists updates, decode dataView = Some (Updates updates) /\ In u updates.

(** ** The record layout, as the specification words it *)

Definition byte_of (z : Z) : byte :=
  match Byte.of_N (Z.to_N z) with Some b => b | None => x00 end.

(** The [n] big-endian bytes of [v]. *)
Fixpoint be_bytes (n : nat) (v : Z) : list byte :=
  match n with
  | O => []
  | S n' => byte_of ((v / 256 ^ Z.of_nat n') mod 256) :: be_bytes n' v
  end.

(** The unsigned number a sequence of bytes denotes, most significant byte
    first. *)
Definition be_value (bs : list byte) : Z :=
  fold_left (fun acc b => acc * 256 + byte_value b) bs 0.

(** The natural numbers a host number holds exactly: those with at most
    53 significant bits. *)
Definition is_double (v : Z) : Prop :=
  exists m k, 0 <= k /\ 0 <= m < 2^53 /\ v = m * 2^k.

(** Sentinel byte 0, reserved byte, address byte, width byte, value. *)
Definition header (reserved : byte) (A N : Z) : list byte :=
  [x00; reserved; byte_of A; byte_of N].

Definition encode_record (reserved : byte) (A N V : Z) : list byte :=
  header reserved A N ++ be_bytes (Z.to_nat N) V.

(** ** Frames *)

(** A record as it lies in a transfer: the reserved byte, the address and
    the value bytes; the width byte is the number of value bytes. *)
Record Frame := mkFrame {
  frame_reserved : byte;
  frame_address : Z;
  frame_value : list byte
}.

Definition frame_width (f : Frame) : Z := Z.of_nat (length (frame_value f)).

Definition encode_frame (f : Frame) : list byte :=
  header (frame_reserved f) (frame_address f) (frame_width f) ++ frame_value f.

(** The update the decoder makes of a frame. *)
Definition frame_update (f : Frame) : RegisterUpdate :=
  mkUpdate (frame_address f) (value_of_bytes (frame_value f)).

(** Address and width fit their bytes. *)
Definition well_formed (f : Frame) : Prop :=
  0 <= frame_address f < 256 /\ frame_width f < 256.

(** The raw value is a finite number. *)
Definition is_finite (u : RegisterUpdate) : Prop :=
  exists z, rawValue u = Finite z.

(** ** The outer loop of [readUsbLoop] *)

(** What [await usbDevice.transferIn(1, 64)] ends with: a result, whose
    status is ['ok'] or not, or an exception. *)
Inductive Transfer :=
| completed (ok : bool) (data : list byte)
| failed (message : jsstring).

(** The messages the loop posts. *)
Inductive UsbMessage :=
| bulk_data (payload : list RegisterUpdate)
| usb_error (message : jsstring).

(** One pass through [while (!stopUsbLoop)], from the [await] on: the
    messages posted, and whether the end of the [try] is reached (rather
    than the [break] of the [catch]).  [stop_seen] is [stopUsbLoop] as it
    stands when the transfer has ended; [range_error] is the text of the
    engine's [RangeError], should the scan throw. *)
Definition usb_pass (range_error : jsstring) (stop_seen : bool) (t : Transfer)
  : list UsbMessage * bool :=
  let caught (message : jsstring) :=
    (if stop_seen then []
     else [usb_error (js "Worker USB read error: " ++ message)], false) in
  match t with
  | failed message => caught message
  | completed false _ => ([], true)
  | completed true data =>
      match decode data with
      | Some (Updates updates) =>
          (if Z.of_nat (length updates) >? 0 then [bulk_data updates] else [],
           true)
      | _ => caught range_error
      end
  end.

(** The loop over the transfers that end, each with the value of
    [stopUsbLoop] found at its end (other handlers set it during the
    [await]); when the list is used up the next transfer never ends. *)
Fixpoint readUsbLoop (range_error : jsstring)
    (transfers : list (Transfer * bool)) : list UsbMessage :=
  match transfers with
  | [] => []
  | (t, stop_seen) :: transfers' =>
      let '(out, at_end) := usb_pass range_error stop_seen t in
      out ++ (if at_end && negb stop_seen
              then readUsbLoop range_error transfers' else [])
  end.

End Telemetry.

(** The two powers of two of 32-bit arithmetic, written out for [lia]. *)
Ltac pow2 :=
  try change (2 ^ 31) with 2147483648 in *;
  try change (2 ^ 32) with 4294967296 in *.

(* ================================================================== *)
(** * The line framing of the earlier worker ([ti-ina229/INA229_worker.js])

    [readSerialLoop] appends every chunk of bytes to [serialReadBuffer] and
    calls [processTextBuffer], which decodes the whole buffer, handles the
    lines up to the last line feed and cuts them off the buffer.

    The model covers 7-bit input: there [textDecoder.decode] maps every byte
    to the code unit of the same value and [textEncoder.encode] maps it
    back, one byte per code unit.  On other input the functions below answer
    [None]: it lies outside the model. *)

Module Legacy.

Definition is7bit (b : byte) : bool := Z.of_N (Byte.to_N b) <? 128.

(** [textDecoder.decode(bytes)], 7-bit input only. *)
Definition textDecoder_decode (bytes : list byte) : option jsstring :=
  if forallb is7bit bytes then Some (map ascii_of_byte bytes) else None.

(** [textEncoder.encode(text).length], for text decoded from 7-bit input. *)
Definition encoded_length (text : jsstring) : Z := jslength text.

(** [text.split('\n')]: the pieces between the separators; an empty text
    gives one empty piece. *)
Fixpoint split_lf (text : jsstring) : list jsstring :=
  match text with
  | [] => [[]]
  | c :: text' =>
      if Ascii.eqb c LF then [] :: split_lf text'
      else match split_lf text' with
           | [] => [[c]]
           | piece :: pieces => (c :: piece) :: pieces
           end
  end.

(** White space and line terminators among the code units below 256. *)
Definition is_space (c : ascii) : bool :=
  let n := nat_of_ascii c in
  ((9 <=? n) && (n <=? 13) || (n =? 32) || (n =? 160))%nat.

Fixpoint trim_start (s : jsstring) : jsstring :=
  match s with
  | [] => []
  | c :: s' => if is_space c then trim_start s' else s
  end.

(** [s.trim()] *)
Definition trim (s : jsstring) : jsstring :=
  rev (trim_start (rev (trim_start s))).

(** The strings [trimmed] for which the body of the [forEach] callback
    runs: the pieces of [linesToProcess], trimmed, the empty ones left
    out. *)
Definition trimmed_lines (linesToProcess : jsstring) : list jsstring :=
  filter (fun trimmed => negb (jslength trimmed =? 0))
         (map trim (split_lf linesToProcess)).

(** The framing done by one call of [processTextBuffer]: the lines handled
    and the new [serialReadBuffer]. *)
Definition frame (serialReadBuffer : list byte)
  : option (list jsstring * list byte) :=
  match textDecoder_decode serialReadBuffer with
  | None => None
  | Some text =>
      let lastNewline := lastIndexOf [LF] text in
      if lastNewline =? -1 then Some ([], serialReadBuffer)
      else
        let linesToProcess := substring text 0 lastNewline in
        let bytesToProcess :=
          encoded_length (substring text 0 (lastNewline + 1)) in
        Some (trimmed_lines linesToProcess,
              skipn (Z.to_nat bytesToProcess) serialReadBuffer)
  end.

(** [readSerialLoop] over a stream of chunks that ends: the lines handled,
    in order.  When [read()] answers [done] the loop is left at once. *)
Fixpoint readSerialLoop (serialReadBuffer : list byte)
    (chunks : list (list byte)) : option (list jsstring) :=
  match chunks with
  | [] => Some []
  | value :: chunks' =>
      match frame (serialReadBuffer ++ value) with
      | None => None
      | Some (lines, serialReadBuffer') =>
          match readSerialLoop serialReadBuffer' chunks' with
          | None => None
          | Some lines' => Some (lines ++ lines')
          end
      end
  end.

(** All lines handled for a stream, the buffer being empty at first. *)
Definition emitted (chunks : list (list byte)) : option (list jsstring) :=
  readSerialLoop [] chunks.

(** The bytes of a 7-bit text. *)
Definition bytes_of (text : jsstring) : list byte := map byte_of_ascii text.

End Legacy.

(* ================================================================== *)
(** * JSON values

    What [JSON.parse] answers.  An object is the list of its own
    properties, each key once.  Numbers are kept abstract: the worker only
    tests them for truthiness, converts them to strings and passes them
    on. *)

#[warnings="-register-all"]
Inductive JsValue (Num : Type) : Type :=
| JNull
| JBool (b : bool)
| JNumber (n : Num)
| JString (s : jsstring)
| JArray (items : list (JsValue Num))
| JObject (props : list (jsstring * JsValue Num)).

Arguments JNull {Num}.
Arguments JBool {Num} b.
Arguments JNumber {Num} n.
Arguments JString {Num} s.
Arguments JArray {Num} items.
Arguments JObject {Num} props.

(** The own property [key] of an object; [None] is [undefined]. *)
Fixpoint own_property {Num} (key : jsstring)
    (props : list (jsstring * JsValue Num)) : option (JsValue Num) :=
  match props with
  | [] => None
  | (k, v) :: props' =>
      if jsstring_eqb k key then Some v else own_property key props'
  end.

(** The outcome of reading a property: a value, [undefined], or the
    [TypeError] of reading a property of [null]. *)
Inductive Property (Num : Type) : Type :=
| Undefined
| Value (v : JsValue Num)
| PropertyOfNull.

Arguments Undefined {Num}.
Arguments Value {Num} v.
Arguments PropertyOfNull {Num}.

(** [data.key] for the keys the worker reads ([acknowledge], [evm_state],
    [register], [address], [value]): none of them is a property of the
    prototypes of strings, numbers, booleans, arrays or plain objects, so
    only the own properties of an object count. *)
Definition get_property {Num} (data : JsValue Num) (key : jsstring)
  : Property Num :=
  match data with
  | JNull => PropertyOfNull
  | JObject props =>
      match own_property key props with
      | Some v => Value v
      | None => Undefined
      end
  | _ => Undefined
  end.

(** Numbers as integers, for the examples: an integer is truthy unless it
    is zero; the examples convert no number to a string. *)
Definition Z_truthy (z : Z) : bool := negb (z =? 0).
Definition Z_toString (z : Z) : jsstring := [].

(** The quotation mark. *)
Definition quote : ascii := ascii_of_nat 34.

(** The text of the record whose only field is [acknowledge], set to
    [true]. *)
Definition ack_text : jsstring :=
  js "{" ++ [quote] ++ js "acknowledge" ++ [quote] ++ js ":true}".

(** A parser for the examples: [JSON.parse] cut down to four texts, the
    three literals and [ack_text]; it rejects every other text. *)
Definition sample_parse (text : jsstring) : option (JsValue Z) :=
  if jsstring_eqb text (js "null") then Some JNull
  else if jsstring_eqb text (js "true") then Some (JBool true)
  else if jsstring_eqb text (js "false") then Some (JBool false)
  else if jsstring_eqb text ack_text
       then Some (JObject [(js "acknowledge", JBool true)])
  else None.

(* ================================================================== *)
(** * The queue-based worker *)

Module Worker.

Inductive Direction := dir_in | dir_out | dir_system.

(** What the worker does to the outside: the messages it posts and the
    texts it hands to [serialWriter.write].  Debug output on the console is
    left out. *)
Inductive Output (Num : Type) : Type :=
| post_log (message : jsstring) (direction : Direction)
| post_status (payload : jsstring)
| post_register (address rawValue : option (JsValue Num))
| serial_write (text : jsstring).

Arguments post_log {Num} message direction.
Arguments post_status {Num} payload.
Arguments post_register {Num} address rawValue.
Arguments serial_write {Num} text.

(** The module-level variables of the worker.  [serialWriter] and
    [serialReader] record whether the variable holds an object. *)
Record Session (Num : Type) : Type := mkSession {
  queue : list jsstring;
  state : JsValue Num;
  ackd : bool;
  serialWriter : bool;
  serialReader : bool;
  stopUsbLoop : bool
}.

Arguments mkSession {Num}.
Arguments queue {Num}.
Arguments state {Num}.
Arguments ackd {Num}.
Arguments serialWriter {Num}.
Arguments serialReader {Num}.
Arguments stopUsbLoop {Num}.

(** The variables as the script initialises them when it is loaded. *)
Definition initial {Num} : Session Num :=
  mkSession [] (JString (js "idle")) true false false false.

Definition set_queue {Num} (q : list jsstring) (s : Session Num) :=
  mkSession q (state s) (ackd s) (serialWriter s) (serialReader s)
            (stopUsbLoop s).
Definition set_state {Num} (v : JsValue Num) (s : Session Num) :=
  mkSession (queue s) v (ackd s) (serialWriter s) (serialReader s)
            (stopUsbLoop s).
Definition set_ackd {Num} (b : bool) (s : Session Num) :=
  mkSession (queue s) (state s) b (serialWriter s) (serialReader s)
            (stopUsbLoop s).
Definition set_serialWriter {Num} (b : bool) (s : Session Num) :=
  mkSession (queue s) (state s) (ackd s) b (serialReader s) (stopUsbLoop s).
Definition set_serialReader {Num} (b : bool) (s : Session Num) :=
  mkSession (queue s) (state s) (ackd s) (serialWriter s) b (stopUsbLoop s).
Definition set_stopUsbLoop {Num} (b : bool) (s : Session Num) :=
  mkSession (queue s) (state s) (ackd s) (serialWriter s) (serialReader s) b.

(** The exceptions that arise in the modelled code; [Error] carries its
    message. *)
Inductive JsError := SyntaxError | TypeError | Error (message : jsstring).

(** [error.message]; the texts of the built-in errors are the engine's and
    never reach a message of the worker. *)
Definition error_message (e : JsError) : jsstring :=
  match e with Error message => message | _ => [] end.

Inductive Result (A : Type) : Type :=
| Ok (a : A)
| Raise (e : JsError).

Arguments Ok {A} a.
Arguments Raise {A} e.

(** A computation of the worker: it starts from the variables, and ends
    with the variables, the outputs made, and a value or an exception.
    What was assigned or posted before an exception stays. *)
Definition Eff (Num A : Type) : Type :=
  Session Num -> Session Num * list (Output Num) * Result A.

Definition ret {Num A} (a : A) : Eff Num A := fun s => (s, [], Ok a).

Definition bind {Num A B} (m : Eff Num A) (k : A -> Eff Num B) : Eff Num B :=
  fun s =>
    let '(s1, out1, r) := m s in
    match r with
    | Ok a => let '(s2, out2, r2) := k a s1 in (s2, out1 ++ out2, r2)
    | Raise e => (s1, out1, Raise e)
    end.

Definition throw {Num A} (e : JsError) : Eff Num A :=
  fun s => (s, [], Raise e).

Definition read {Num A} (field : Session Num -> A) : Eff Num A :=
  fun s => (s, [], Ok (field s)).

Definition assign {Num} (update : Session Num -> Session Num) : Eff Num unit :=
  fun s => (update s, [], Ok tt).

Definition emit {Num} (o : Output Num) : Eff Num unit :=
  fun s => (s, [o], Ok tt).

(** [try { body } catch (e) { handler(e) }] *)
Definition try_catch {Num} (body : Eff Num unit)
    (handler : JsError -> Eff Num unit) : Eff Num unit :=
  fun s =>
    let '(s1, out1, r) := body s in
    match r with
    | Ok _ => (s1, out1, Ok tt)
    | Raise e => let '(s2, out2, r2) := handler e s1 in (s2, out1 ++ out2, r2)
    end.

(** [if (c) { m }] *)
Definition when {Num} (c : bool) (m : Eff Num unit) : Eff Num unit :=
  if c then m else ret tt.

Declare Scope eff_scope.
Delimit Scope eff_scope with eff.
Notation "x <- m ;; k" := (bind m (fun x => k))
  (at level 61, m at next level, right associativity) : eff_scope.
Notation "m ;; k" := (bind m (fun _ => k))
  (at level 61, right associativity) : eff_scope.

(** What [handleConnect] meets outside the worker: no serial port is
    granted or it does not open; the serial side is acquired but the USB
    device is missing or does not open; or both are acquired. *)
Inductive Acquisition :=
| no_serial (message : jsstring)
| no_usb (message : jsstring)
| acquired.

(** [event.data] of the messages the worker handles; [command] is text. *)
Inductive Message :=
| connect (acquisition : Acquisition)
| disconnect
| write (command : jsstring)
| start_stream (command : jsstring)
| stop_stream.

(** What the worker reacts to: a message from the host, or a line handed to
    one pass of [readSerialLoop].  The loop runs only after a connect that
    succeeded; the model lets a line arrive at any time, which adds runs
    and takes none away. *)
Inductive Event :=
| on_message (m : Message)
| on_line (text : jsstring).

(** Sends and acknowledgments, as seen on the serial channel. *)
Inductive Observation :=
| Acked
| Sent (text : jsstring).

(** The number of commands sent and not yet acknowledged, after a sequence
    of observations, starting from [n]: a send adds one, an acknowledgment
    confirms one. *)
Fixpoint in_flight (n : nat) (obs : list Observation) : nat :=
  match obs with
  | [] => n
  | Acked :: obs' => in_flight (Nat.pred n) obs'
  | Sent _ :: obs' => in_flight (S n) obs'
  end.

Section Script.

(** The numbers of the host and its JSON parser ([None]: [SyntaxError]). *)
Variable Num : Type.
Variable number_truthy : Num -> bool.
Variable number_toString : Num -> jsstring.
Variable JSON_parse : jsstring -> option (JsValue Num).

(** [ToBoolean] *)
Definition truthy (v : JsValue Num) : bool :=
  match v with
  | JNull => false
  | JBool b => b
  | JNumber n => number_truthy n
  | JString s => negb (jslength s =? 0)
  | JArray _ => true
  | JObject _ => true
  end.

Definition truthy_opt (v : option (JsValue Num)) : bool :=
  match v with Some v => truthy v | None => false end.

(** [ToString]; an array joins its elements with commas, [null] elements
    counting as empty. *)
Fixpoint toString (v : JsValue Num) : jsstring :=
  match v with
  | JNull => js "null"
  | JBool true => js "true"
  | JBool false => js "false"
  | JNumber n => number_toString n
  | JString s => s
  | JArray items =>
      (fix join (items : list (JsValue Num)) : jsstring :=
         match items with
         | [] => []
         | [x] => match x with JNull => [] | _ => toString x end
         | x :: items' =>
             (match x with JNull => [] | _ => toString x end)
               ++ js "," ++ join items'
         end) items
  | JObject _ => js "[object Object]"
  end.

(** [v == word] for a string [word] that does not read as a number: a
    string is compared as it is, an object or array through its string
    conversion; [null], booleans and numbers are never equal to it. *)
Definition loose_eq_word (v : JsValue Num) (word : jsstring) : bool :=
  match v with
  | JString s => jsstring_eqb s word
  | JArray _ | JObject _ => jsstring_eqb (toString v) word
  | _ => false
  end.

(** [data.key]; reading a property of [null] throws. *)
Definition member (data : JsValue Num) (key : jsstring)
  : Eff Num (option (JsValue Num)) :=
  match get_property data key with
  | PropertyOfNull => throw TypeError
  | Undefined => ret None
  | Value v => ret (Some v)
  end.

(** [state == 'idle' || state == 'collecting'] *)
Definition acceptable (state : JsValue Num) : bool :=
  loose_eq_word state (js "idle") || loose_eq_word state (js "collecting").

(** [handleQueue()], up to its only [await], the write itself. *)
Definition handleQueue : Eff Num unit :=
  (writer <- read serialWriter ;;
   if negb writer then ret tt
   else
     st <- read state ;;
     ack <- read ackd ;;
     if acceptable st && ack then
       q <- read queue ;;
       match q with
       | cmd :: q' =>
           assign (set_queue q') ;;
           emit (post_log cmd dir_out) ;;
           assign (set_ackd false) ;;
           emit (serial_write (cmd ++ [LF]))
       | [] => ret tt
       end
     else ret tt)%eff.

(** [writeCommand(command)] *)
Definition writeCommand (command : jsstring) : Eff Num unit :=
  (assign (fun s => set_queue (queue s ++ [command]) s) ;;
   handleQueue)%eff.

(** The body of the inner [try] of [readSerialLoop]. *)
Definition decode_body (line : jsstring) : Eff Num unit :=
  match JSON_parse line with
  | None => throw SyntaxError
  | Some data =>
      (acknowledge <- member data (js "acknowledge") ;;
       when (truthy_opt acknowledge) (assign (set_ackd true)) ;;
       evm_state <- member data (js "evm_state") ;;
       match evm_state with
       | Some v => when (truthy v) (assign (set_state v))
       | None => ret tt
       end ;;
       register <- member data (js "register") ;;
       match register with
       | Some reg =>
           when (truthy reg)
             (address <- member reg (js "address") ;;
              value <- member reg (js "value") ;;
              emit (post_register address value))
       | None => ret tt
       end)%eff
  end.

(** [try { ... } catch (e) { /* Ignore non-JSON lines */ }] *)
Definition decodeLine (line : jsstring) : Eff Num unit :=
  try_catch (decode_body line) (fun _ => ret tt).

(** One pass of the loop of [readSerialLoop], for a line that is not
    [null]. *)
Definition readSerialLoop_line (line0 : jsstring) : Eff Num unit :=
  let line := replace_first [LF] [] line0 in
  (emit (post_log line dir_in) ;;
   decodeLine line ;;
   handleQueue)%eff.

(** [handleConnect()].  After the status message it starts
    [readSerialLoop], which first waits for a line. *)
Definition handleConnect (acquisition : Acquisition) : Eff Num unit :=
  try_catch
    (match acquisition with
     | no_serial message => throw (Error message)
     | _ => ret tt
     end ;;
     assign (set_serialWriter true) ;;
     assign (set_serialReader true) ;;
     match acquisition with
     | no_usb message => throw (Error message)
     | _ => ret tt
     end ;;
     emit (post_status (js "Connected")))%eff
    (fun error =>
       emit (post_log (js "Worker connect error: " ++ error_message error)
                      dir_system) ;;
       emit (post_status (js "Error: " ++ error_message error)))%eff.

(** [handleDisconnect()].  [serialReader] holds the function made by
    [createLineReader], which has no [cancel]: the call throws and the
    handler ends there. *)
Definition handleDisconnect : Eff Num unit :=
  (assign (set_stopUsbLoop true) ;;
   reader <- read serialReader ;;
   (if reader then throw TypeError else ret tt) ;;
   writer <- read serialWriter ;;
   when writer (assign (set_serialWriter false)) ;;
   emit (post_status (js "Disconnected")))%eff.

(** [self.onmessage]; [readUsbLoop()] begins by clearing [stopUsbLoop]. *)
Definition onmessage (m : Message) : Eff Num unit :=
  match m with
  | connect acquisition => handleConnect acquisition
  | disconnect => handleDisconnect
  | write command => writeCommand command
  | start_stream command =>
      (writeCommand command ;; assign (set_stopUsbLoop false))%eff
  | stop_stream =>
      (assign (set_stopUsbLoop true) ;; writeCommand (js "stop 1"))%eff
  end.

Definition step (e : Event) : Eff Num unit :=
  match e with
  | on_message m => onmessage m
  | on_line text => readSerialLoop_line text
  end.

(** The worker handles one event after the other; an exception that leaves
    a handler is lost and the next event is handled. *)
Fixpoint run (events : list Event) (s : Session Num)
  : Session Num * list (Output Num) :=
  match events with
  | [] => (s, [])
  | e :: events' =>
      let '(s1, out1, _) := step e s in
      let '(s2, out2) := run events' s1 in
      (s2, out1 ++ out2)
  end.

(** The texts handed to the serial writer. *)
Definition writes (out : list (Output Num)) : list jsstring :=
  flat_map (fun o => match o with serial_write text => [text] | _ => [] end)
           out.

(** The commands an event appends to the queue. *)
Definition enqueued (e : Event) : list jsstring :=
  match e with
  | on_message (write command) => [command]
  | on_message (start_stream command) => [command]
  | on_message stop_stream => [js "stop 1"]
  | _ => []
  end.

(** The text given to the decoder is an acknowledgment: its record has a
    truthy [acknowledge] field. *)
Definition carries_ack (line : jsstring) : bool :=
  match JSON_parse line with
  | Some data =>
      match get_property data (js "acknowledge") with
      | Value v => truthy v
      | _ => false
      end
  | None => false
  end.

(** The line read from the port is an acknowledgment. *)
Definition acknowledges (text : jsstring) : bool :=
  carries_ack (replace_first [LF] [] text).

(** The text written to the port for a command. *)
Definition on_wire (command : jsstring) : jsstring := command ++ [LF].

(** The acknowledgment an event carries. *)
Definition acked_by (e : Event) : bool :=
  match e with
  | on_line text => acknowledges text
  | _ => false
  end.

(** What one event shows on the serial channel: the acknowledgment it
    carries, then the sends it causes. *)
Definition observed (e : Event) (out : list (Output Num))
  : list Observation :=
  (if acked_by e then [Acked] else []) ++ map Sent (writes out).

Fixpoint trace (events : list Event) (s : Session Num) : list Observation :=
  match events with
  | [] => []
  | e :: events' =>
      let '(s1, out1, _) := step e s in
      observed e out1 ++ trace events' s1
  end.

(** The line is a structured record: it parses to an object. *)
Definition is_record (text : jsstring) : bool :=
  match JSON_parse text with
  | Some (JObject _) => true
  | _ => false
  end.

(** The earlier worker: the inner [try] of [processTextBuffer], which only
    looks for [register]. *)
Definition legacy_decode_body (trimmed : jsstring) : Eff Num unit :=
  match JSON_parse trimmed with
  | None => throw SyntaxError
  | Some data =>
      (register <- member data (js "register") ;;
       match register with
       | Some reg =>
           when (truthy reg)
             (address <- member reg (js "address") ;;
              value <- member reg (js "value") ;;
              emit (post_register address value))
       | None => ret tt
       end)%eff
  end.

Definition legacy_decodeLine (trimmed : jsstring) : Eff Num unit :=
  try_catch (legacy_decode_body trimmed) (fun _ => ret tt).

(** The condition under which [handleQueue] goes on to look at the
    queue: a writer, [state == 'idle' || state == 'collecting'], and
    [ackd]. *)
Definition gate (s : Session Num) : bool :=
  serialWriter s && (acceptable (state s) && ackd s).

(** The handler of the event ends with a call of [handleQueue]:
    [writeCommand] does, and so does a pass of [readSerialLoop];
    [handleConnect] and [handleDisconnect] do not call it. *)
Definition attempts_release (e : Event) : bool :=
  match e with
  | on_message (connect _) | on_message disconnect => false
  | _ => true
  end.

(** The event is a connect that gets as far as the assignment of
    [serialWriter]. *)
Definition attaches_writer (e : Event) : bool :=
  match e with
  | on_message (connect (no_usb _)) | on_message (connect acquired) => true
  | _ => false
  end.

(** The messages of the log with direction ['in'], and the payloads of the
    status messages. *)
Definition logged_in (out : list (Output Num)) : list jsstring :=
  flat_map (fun o => match o with
                     | post_log message dir_in => [message]
                     | _ => []
                     end) out.

Definition statuses (out : list (Output Num)) : list jsstring :=
  flat_map (fun o => match o with post_status payload => [payload] | _ => [] end)
           out.

(** The line an event hands to the log. *)
Definition line_of (e : Event) : list jsstring :=
  match e with
  | on_line text => [replace_first [LF] [] text]
  | _ => []
  end.

(** A property read from a value that is not [null]. *)
Definition field (v : JsValue Num) (key : jsstring) : option (JsValue Num) :=
  match get_property v key with
  | Value x => Some x
  | _ => None
  end.

(** The earlier worker: [writeCommand(command)] writes at once, or returns
    when there is no writer. *)
Definition legacy_writeCommand (command : jsstring) : Eff Num unit :=
  (writer <- read serialWriter ;;
   if negb writer then ret tt
   else
     emit (post_log command dir_out) ;;
     emit (serial_write (command ++ [LF])))%eff.

(** The earlier worker: the cases of [self.onmessage] that send a
    command; the other messages are not modelled ([None]). *)
Definition legacy_command (m : Message) : option (Eff Num unit) :=
  match m with
  | write command => Some (legacy_writeCommand command)
  | start_stream command =>
      Some (legacy_writeCommand command ;; assign (set_stopUsbLoop false))%eff
  | stop_stream =>
      Some (assign (set_stopUsbLoop true) ;; legacy_writeCommand (js "stop"))%eff
  | _ => None
  end.

(** The earlier worker handling command messages one after the other. *)
Fixpoint legacy_run (messages : list Message) (s : Session Num)
  : Session Num * list (Output Num) :=
  match messages with
  | [] => (s, [])
  | m :: messages' =>
      match legacy_command m with
      | Some handler =>
          let '(s1, out1, _) := handler s in
          let '(s2, out2) := legacy_run messages' s1 in
          (s2, out1 ++ out2)
      | None => (s, [])
      end
  end.

(** The command a message of the earlier worker carries. *)
Definition legacy_carried (m : Message) : list jsstring :=
  match m with
  | write command => [command]
  | start_stream command => [command]
  | stop_stream => [js "stop"]
  | _ => []
  end.

(* ================================================================ *)
(** ** Facts about the handlers *)

(** [handleQueue] in one piece. *)
Lemma handleQueue_eq (s : Session Num) :
  handleQueue s =
    if serialWriter s && (acceptable (state s) && ackd s) then
      match queue s with
      | cmd :: q' =>
          (set_ackd false (set_queue q' s),
           [post_log cmd dir_out; serial_write (cmd ++ [LF])], Ok tt)
      | [] => (s, [], Ok tt)
      end
    else (s, [], Ok tt).
Proof.
  destruct s as [q st a w r u]. unfold handleQueue, bind, read. cbn.
  destruct w; cbn; [|reflexivity].
  destruct (acceptable st && a); cbn; [|reflexivity].
  destruct q; reflexivity.
Qed.

(** The decoder never lets an exception out, touches neither the queue nor
    the writer, writes nothing to the serial port, and raises [ackd]
    exactly for an acknowledgment. *)
Lemma decodeLine_effect (text : jsstring) (s : Session Num) :
  exists s' out,
    decodeLine text s = (s', out, Ok tt) /\
    queue s' = queue s /\ serialWriter s' = serialWriter s /\
    writes out = [] /\
    ackd s' = ackd s || carries_ack text.
Proof.
  destruct s as [q st a w r u].
  unfold decodeLine, try_catch, decode_body, carries_ack, member.
  destruct (JSON_parse text) as [data|].
  2:{ cbn. do 2 eexists. split; [reflexivity|]. cbn. now rewrite orb_false_r. }
  destruct data as [|b|n|str|items|props];
    try (cbn; do 2 eexists; split; [reflexivity|];
         cbn; now rewrite orb_false_r).
  unfold get_property.
  destruct (own_property (js "acknowledge") props) as [va|];
    destruct (own_property (js "evm_state") props) as [ve|];
    destruct (own_property (js "register") props) as [vr|];
    unfold bind, when, ret, assign, emit, throw, truthy_opt; cbn;
    try destruct (truthy va); try destruct (truthy ve);
    try (destruct vr as [|b|n|str|items|rprops]; cbn;
         try destruct b; try destruct (number_truthy n);
         try destruct (negb (jslength str =? 0));
         try destruct (own_property (js "address") rprops);
         try destruct (own_property (js "value") rprops); cbn);
    do 2 eexists; (split; [reflexivity|]); cbn;
    rewrite ?orb_true_r, ?orb_false_r; auto.
Qed.

Lemma bind_ok {A B} (m : Eff Num A) (k : A -> Eff Num B) s s1 out1 a :
  m s = (s1, out1, Ok a) ->
  bind m k s = let '(s2, out2, r2) := k a s1 in (s2, out1 ++ out2, r2).
Proof. intros H. unfold bind. now rewrite H. Qed.

(** What a release attempt does: nothing, or one send, made with [ackd]
    true and leaving it false. *)
Lemma handleQueue_effect (s : Session Num) :
  exists s' out,
    handleQueue s = (s', out, Ok tt) /\
    writes out ++ map on_wire (queue s') = map on_wire (queue s) /\
    ((writes out = [] /\ s' = s) \/
     (exists cmd, writes out = [on_wire cmd] /\
                  ackd s = true /\ ackd s' = false)).
Proof.
  rewrite handleQueue_eq.
  destruct (serialWriter s && (acceptable (state s) && ackd s)) eqn:E.
  2:{ exists s, []. auto. }
  destruct (queue s) as [|cmd q'] eqn:Eq.
  { exists s, []. rewrite Eq. auto. }
  do 2 eexists. split; [reflexivity|]. split; [reflexivity|].
  right. exists cmd. repeat split.
  apply andb_prop in E as [_ E]. now apply andb_prop in E as [_ E].
Qed.

Lemma writeCommand_effect (command : jsstring) (s : Session Num) :
  exists s' out,
    writeCommand command s = (s', out, Ok tt) /\
    writes out ++ map on_wire (queue s') = map on_wire (queue s ++ [command]) /\
    ((writes out = [] /\ ackd s' = ackd s) \/
     (exists cmd, writes out = [on_wire cmd] /\
                  ackd s = true /\ ackd s' = false)).
Proof.
  unfold writeCommand, bind, assign.
  destruct (handleQueue_effect (set_queue (queue s ++ [command]) s))
    as (s1 & out & Hq & Hw & Hcase).
  rewrite Hq. cbn [app].
  do 2 eexists. split; [reflexivity|]. split; [exact Hw|].
  destruct Hcase as [[Hn ->]|(cmd & H1 & H2 & H3)].
  - left. split; [exact Hn|]. now destruct s.
  - right. exists cmd. split; [exact H1|]. split; [|exact H3].
    now destruct s.
Qed.

(** What handling one event does to the queue, to the port and to
    [ackd]. *)
Lemma step_effect (e : Event) (s : Session Num) :
  exists s' out r,
    step e s = (s', out, r) /\
    writes out ++ map on_wire (queue s') = map on_wire (queue s ++ enqueued e) /\
    ((writes out = [] /\ ackd s' = ackd s || acked_by e) \/
     (exists cmd, writes out = [on_wire cmd] /\
                  ackd s || acked_by e = true /\ ackd s' = false)).
Proof.
  destruct e as [[acq| |command|command|]|text];
    cbn [step onmessage enqueued acked_by].
  - (* connect *)
    rewrite app_nil_r, orb_false_r.
    destruct s as [q st a w r u].
    destruct acq; cbn; do 3 eexists; (split; [reflexivity|]); cbn; auto.
  - (* disconnect *)
    rewrite app_nil_r, orb_false_r.
    destruct s as [q st a w r u].
    destruct r, w; cbn; do 3 eexists; (split; [reflexivity|]); cbn; auto.
  - (* write *)
    rewrite orb_false_r.
    destruct (writeCommand_effect command s) as (s' & out & H1 & H2 & H3).
    now exists s', out, (Ok tt).
  - (* start-stream *)
    rewrite orb_false_r.
    destruct (writeCommand_effect command s) as (s' & out & H1 & H2 & H3).
    rewrite (bind_ok _ _ _ _ _ _ H1). cbn. rewrite app_nil_r.
    do 3 eexists. split; [reflexivity|].
    destruct s'. cbn in *. auto.
  - (* stop-stream *)
    rewrite orb_false_r.
    destruct (writeCommand_effect (js "stop 1") (set_stopUsbLoop true s))
      as (s' & out & H1 & H2 & H3).
    unfold bind at 1, assign at 1. rewrite H1. cbn [app].
    do 3 eexists. split; [reflexivity|].
    destruct s. cbn in *. auto.
  - (* a line *)
    rewrite app_nil_r. unfold readSerialLoop_line, acknowledges.
    set (cleaned := replace_first [LF] [] text).
    destruct (decodeLine_effect cleaned s)
      as (s1 & out1 & Hd & Hq & _ & Hw & Ha).
    destruct (handleQueue_effect s1) as (s2 & out2 & Hh & Hq2 & Hcase).
    unfold bind, emit. rewrite Hd, Hh.
    do 3 eexists. split; [reflexivity|].
    cbn [app]. unfold writes in *. cbn [flat_map app].
    rewrite flat_map_app, Hw. cbn [app].
    rewrite <- Hq. split; [exact Hq2|].
    destruct Hcase as [[Hn ->]|(cmd & H1 & H2 & H3)].
    + left. split; [exact Hn|exact Ha].
    + right. exists cmd. rewrite <- Ha. auto.
Qed.

(** ** Runs *)

Lemma in_flight_app (n : nat) (a b : list Observation) :
  in_flight n (a ++ b) = in_flight (in_flight n a) b.
Proof.
  revert n. induction a as [|[|text] a IH]; intros n; cbn; auto.
Qed.

(** With at most one command in flight, and none when [ackd] is true, the
    count never exceeds one in what follows. *)
Lemma trace_in_flight (events : list Event) :
  forall (s : Session Num) (n : nat),
    (n <= 1)%nat -> (ackd s = true -> n = O) ->
    forall obs1 obs2,
      trace events s = obs1 ++ obs2 -> (in_flight n obs1 <= 1)%nat.
Proof.
  induction events as [|e events IH]; intros s n Hn Hack obs1 obs2 Ht.
  - cbn in Ht. symmetry in Ht. apply app_eq_nil in Ht as [-> _]. exact Hn.
  - cbn [trace] in Ht.
    destruct (step_effect e s) as (s1 & out1 & r & Hs & _ & Hcase).
    rewrite Hs in Ht. unfold observed in Ht.
    assert (Hstep :
      exists obs_e,
        obs_e ++ trace events s1 = obs1 ++ obs2 /\
        (forall p q, obs_e = p ++ q -> (in_flight n p <= 1)%nat) /\
        (in_flight n obs_e <= 1)%nat /\
        (ackd s1 = true -> in_flight n obs_e = O)).
    { eexists. split; [exact Ht|].
      destruct Hcase as [[Hw Ha]|(cmd & Hw & Ha & Hf)]; rewrite Hw; cbn [map].
      - rewrite app_nil_r. destruct (acked_by e).
        + repeat split.
          * intros [|o [|o' p]] q Hp; cbn in *; try discriminate; [lia|].
            injection Hp as <- _. cbn. lia.
          * cbn. lia.
          * intros _. cbn. lia.
        + repeat split.
          * intros [|o p] q Hp; cbn in *; try discriminate. lia.
          * exact Hn.
          * rewrite orb_false_r in Ha. rewrite Ha. exact Hack.
      - destruct (acked_by e).
        + repeat split.
          * intros [|o [|o' [|o2 p]]] q Hp; cbn in *; try discriminate;
              [lia| |].
            -- injection Hp as <- _. cbn. lia.
            -- injection Hp as <- <- _. cbn. lia.
          * cbn. lia.
          * rewrite Hf. discriminate.
        + rewrite orb_false_r in Ha. specialize (Hack Ha). subst n.
          repeat split.
          * intros [|o [|o' p]] q Hp; cbn in *; try discriminate; [lia|].
            injection Hp as <- _. cbn. lia.
          * cbn. lia.
          * rewrite Hf. discriminate. }
    destruct Hstep as (obs_e & Heq & Hpre & Hn1 & Hack1).
    apply app_eq_app in Heq as [l [[H1 H2]|[H1 H2]]].
    + exact (Hpre _ _ H1).
    + subst obs1. rewrite in_flight_app.
      exact (IH s1 _ Hn1 Hack1 _ _ H2).
Qed.

(** ** The decoder on lines that are no records *)

Lemma decodeLine_not_record (text : jsstring) (s : Session Num) :
  is_record text = false -> decodeLine text s = (s, [], Ok tt).
Proof.
  unfold is_record, decodeLine, try_catch, decode_body, member.
  destruct (JSON_parse text) as [[|b|n|str|items|props]|];
    intros H; try discriminate H; reflexivity.
Qed.

Lemma legacy_decodeLine_not_record (text : jsstring) (s : Session Num) :
  is_record text = false -> legacy_decodeLine text s = (s, [], Ok tt).
Proof.
  unfold is_record, legacy_decodeLine, try_catch, legacy_decode_body, member.
  destruct (JSON_parse text) as [[|b|n|str|items|props]|];
    intros H; try discriminate H; reflexivity.
Qed.

Lemma legacy_decodeLine_total (text : jsstring) (s : Session Num) :
  exists out, legacy_decodeLine text s = (s, out, Ok tt).
Proof.
  unfold legacy_decodeLine, try_catch, legacy_decode_body, member.
  destruct (JSON_parse text) as [[|b|n|str|items|props]|];
    try (eexists; reflexivity).
  unfold get_property.
  destruct (own_property (js "register") props) as [vr|];
    unfold bind, when, ret, emit, throw; cbn; [|eexists; reflexivity].
  destruct vr as [|b|n|str|items|rprops]; cbn;
    try destruct b; try destruct (number_truthy n);
    try destruct (negb (jslength str =? 0));
    try destruct (own_property (js "address") rprops);
    try destruct (own_property (js "value") rprops); cbn;
    eexists; reflexivity.
Qed.

(** A pass of [readSerialLoop] with a line that is no record: the line is
    logged and a release is attempted, nothing else. *)
Lemma readSerialLoop_line_not_record (text : jsstring) (s : Session Num) :
  is_record (replace_first [LF] [] text) = false ->
  readSerialLoop_line text s
  = (fst (fst (handleQueue s)),
     post_log (replace_first [LF] [] text) dir_in :: snd (fst (handleQueue s)),
     Ok tt).
Proof.
  intros H. unfold readSerialLoop_line, bind at 1 2, emit.
  rewrite (decodeLine_not_record _ s H).
  destruct (handleQueue_effect s) as (s' & out & Hq & _). now rewrite Hq.
Qed.

(* ================================================================ *)
(** ** The command queue and the session *)

(** C1.  A command is sent only while [ackd] is true, and the send sets
    [ackd] to false: this holds of every release attempt ([handleQueue]),
    and every event causes no send or exactly one, after which [ackd] is
    false.  Hence, along every sequence of enqueue, line (acknowledgment,
    state change) and connection events, from every state, the number of
    commands sent and not yet acknowledged never exceeds one. *)
Theorem single_flight (s : Session Num) (events : list Event) :
  (forall s' out r text,
      handleQueue s = (s', out, r) -> In text (writes out) ->
      ackd s = true /\ ackd s' = false /\ writes out = [text]) /\
  (forall e s' out r,
      step e s = (s', out, r) ->
      writes out = [] \/
      exists cmd, writes out = [on_wire cmd] /\ ackd s' = false) /\
  (forall obs1 obs2,
      trace events s = obs1 ++ obs2 -> (in_flight 0 obs1 <= 1)%nat).
Proof.
  split; [|split].
  - intros s' out r text Hq Hin.
    destruct (handleQueue_effect s) as (s1 & out1 & H1 & _ & Hcase).
    rewrite H1 in Hq. injection Hq as <- <- _.
    destruct Hcase as [[Hn _]|(cmd & Hw & Ha & Hf)].
    + rewrite Hn in Hin. destruct Hin.
    + rewrite Hw in Hin |- *. destruct Hin as [<-|[]]. auto.
  - intros e s' out r Hs.
    destruct (step_effect e s) as (s1 & out1 & r1 & H1 & _ & Hcase).
    rewrite H1 in Hs. injection Hs as <- <- _.
    destruct Hcase as [[Hn _]|(cmd & Hw & _ & Hf)]; [now left|].
    right. now exists cmd.
  - intros obs1 obs2 Ht.
    apply (trace_in_flight events s 0 ltac:(lia) ltac:(auto) _ _ Ht).
Qed.

(** C7.  Along every sequence of events, from every state, the texts
    written to the serial port, in the order of writing, followed by the
    commands still queued, are the commands queued at first followed by the
    commands enqueued since, in the order of enqueueing: commands are sent
    first in, first out, and none twice. *)
Theorem fifo_release (s : Session Num) (events : list Event) :
  writes (snd (run events s)) ++ map on_wire (queue (fst (run events s)))
  = map on_wire (queue s ++ flat_map enqueued events).
Proof.
  revert s. induction events as [|e events IH]; intros s.
  - cbn. now rewrite app_nil_r.
  - cbn [run flat_map].
    destruct (step_effect e s) as (s1 & out1 & r & Hs & Hq & _).
    rewrite Hs. specialize (IH s1).
    destruct (run events s1) as [s2 out2]. cbn [fst snd] in *.
    unfold writes in *. rewrite flat_map_app, <- app_assoc, IH.
    rewrite map_app, app_assoc, Hq, <- map_app.
    now rewrite <- app_assoc.
Qed.

(** C9.  The command line decoder ([decodeLine], the inner [try] of
    [readSerialLoop]) lets no exception out, for any line; when the line
    is not a structured record (it does not parse, or parses to something
    that is no object) the decoder leaves every variable of the session as
    it was and posts nothing.  The same holds of the [try] in
    [processTextBuffer] of the earlier worker, which changes no variable
    for any line. *)
Theorem decoder_ignores_malformed (text : jsstring) (s : Session Num) :
  (exists s' out, decodeLine text s = (s', out, Ok tt)) /\
  (exists out, legacy_decodeLine text s = (s, out, Ok tt)) /\
  (is_record text = false ->
   decodeLine text s = (s, [], Ok tt) /\
   legacy_decodeLine text s = (s, [], Ok tt)).
Proof.
  split; [|split].
  - destruct (decodeLine_effect text s) as (s' & out & H & _).
    now exists s', out.
  - apply legacy_decodeLine_total.
  - intros H. split.
    + now apply decodeLine_not_record.
    + now apply legacy_decodeLine_not_record.
Qed.

(** C5 (amended).  [handleConnect] assigns none of [ackd], [queue] and
    [state]: whatever the outcome of the acquisition, they are after the
    connect event what they were before it.  They hold [true], the empty
    queue and ['idle'] when the script is loaded. *)
Theorem connect_keeps_session (acquisition : Acquisition) (s : Session Num) :
  (ackd (fst (fst (handleConnect acquisition s))) = ackd s /\
   queue (fst (fst (handleConnect acquisition s))) = queue s /\
   state (fst (fst (handleConnect acquisition s))) = state s) /\
  (ackd (@initial Num) = true /\ queue (@initial Num) = [] /\
   state (@initial Num) = JString (js "idle")).
Proof.
  split.
  - destruct s as [q st a w r u]. destruct acquisition; cbn; auto.
  - repeat split.
Qed.

(* ================================================================ *)
(** ** More on the handlers *)

Lemma on_wire_inj (a b : list jsstring) :
  map on_wire a = map on_wire b -> a = b.
Proof.
  revert b. induction a as [|x a IH]; intros [|y b] H; try discriminate H.
  - reflexivity.
  - cbn [map] in H. injection H as Hx Hab. unfold on_wire in Hx.
    apply app_inv_tail in Hx. subst y. f_equal. now apply IH.
Qed.

(** After a release attempt the gate is shut or the queue is empty; the
    attempt changes none of [state], [serialWriter], [serialReader]. *)
Lemma handleQueue_after (s : Session Num) :
  exists s' out,
    handleQueue s = (s', out, Ok tt) /\
    (gate s' = true -> queue s' = []) /\
    state s' = state s /\ serialWriter s' = serialWriter s /\
    serialReader s' = serialReader s /\
    logged_in out = [] /\ statuses out = [] /\
    (gate s = false -> s' = s /\ out = []).
Proof.
  rewrite handleQueue_eq. fold (gate s).
  destruct (gate s) eqn:E.
  2:{ exists s, []. repeat split; auto. congruence. }
  destruct (queue s) as [|cmd q'] eqn:Eq.
  { exists s, []. repeat split; auto; discriminate. }
  do 2 eexists. split; [reflexivity|].
  destruct s as [q st a w r u]. unfold gate. cbn.
  rewrite !andb_false_r. repeat split; auto; discriminate.
Qed.

(** The decoder changes only [ackd] and [state]; it posts register data
    and nothing else. *)
Lemma decodeLine_after (text : jsstring) (s : Session Num) :
  exists s' out,
    decodeLine text s = (s', out, Ok tt) /\
    queue s' = queue s /\ serialWriter s' = serialWriter s /\
    serialReader s' = serialReader s /\
    writes out = [] /\ logged_in out = [] /\ statuses out = [] /\
    ackd s' = ackd s || carries_ack text.
Proof.
  destruct s as [q st a w r u].
  unfold decodeLine, try_catch, decode_body, carries_ack, member.
  destruct (JSON_parse text) as [data|].
  2:{ cbn. do 2 eexists. split; [reflexivity|]. cbn.
      now rewrite orb_false_r. }
  destruct data as [|b|n|str|items|props];
    try (cbn; do 2 eexists; split; [reflexivity|];
         cbn; now rewrite orb_false_r).
  unfold get_property.
  destruct (own_property (js "acknowledge") props) as [va|];
    destruct (own_property (js "evm_state") props) as [ve|];
    destruct (own_property (js "register") props) as [vr|];
    unfold bind, when, ret, assign, emit, throw, truthy_opt; cbn;
    try destruct (truthy va); try destruct (truthy ve);
    try (destruct vr as [|b|n|str|items|rprops]; cbn;
         try destruct b; try destruct (number_truthy n);
         try destruct (negb (jslength str =? 0));
         try destruct (own_property (js "address") rprops);
         try destruct (own_property (js "value") rprops); cbn);
    do 2 eexists; (split; [reflexivity|]); cbn;
    rewrite ?orb_true_r, ?orb_false_r; repeat split; auto.
Qed.

(** [writeCommand] in terms of the release attempt. *)
Lemma writeCommand_eq (command : jsstring) (s : Session Num) :
  writeCommand command s = handleQueue (set_queue (queue s ++ [command]) s).
Proof.
  unfold writeCommand, bind, assign.
  destruct (handleQueue_after (set_queue (queue s ++ [command]) s))
    as (s' & out & H & _). now rewrite H.
Qed.

(** One pass of [readSerialLoop] in terms of its parts. *)
Lemma readSerialLoop_line_eq (text : jsstring) (s s1 s2 : Session Num)
    out1 out2 :
  decodeLine (replace_first [LF] [] text) s = (s1, out1, Ok tt) ->
  handleQueue s1 = (s2, out2, Ok tt) ->
  readSerialLoop_line text s
  = (s2, post_log (replace_first [LF] [] text) dir_in :: out1 ++ out2, Ok tt).
Proof.
  intros Hd Hq. unfold readSerialLoop_line, bind, emit.
  now rewrite Hd, Hq.
Qed.

(** A release attempt, as the events see it. *)
Lemma release_after (s : Session Num) :
  exists s' out,
    handleQueue s = (s', out, Ok tt) /\
    (gate s' = true -> queue s' = []) /\
    (serialReader s = true ->
     serialReader s' = true /\
     (serialWriter s = true -> serialWriter s' = true) /\
     ~ In (js "Disconnected") (statuses out)) /\
    (serialWriter s = false -> serialWriter s' = false /\ writes out = []) /\
    logged_in out = [].
Proof.
  destruct (handleQueue_after s)
    as (s' & out & H & Hg & _ & Hw & Hr & Hl & Hst & Hn).
  exists s', out. split; [exact H|]. split; [exact Hg|].
  split; [|split; [|exact Hl]].
  - intros Hr0. rewrite Hr, Hw, Hst. repeat split; auto.
  - intros Hw0. rewrite Hw. split; [exact Hw0|].
    assert (Hg0 : gate s = false) by (unfold gate; now rewrite Hw0).
    destruct (Hn Hg0) as [_ ->]. reflexivity.
Qed.

(** What one event does to the variables of the connection and to the
    log. *)
Lemma step_after (e : Event) (s : Session Num) :
  exists s' out r,
    step e s = (s', out, r) /\
    (attempts_release e = true -> gate s' = true -> queue s' = []) /\
    (serialReader s = true ->
     serialReader s' = true /\
     (serialWriter s = true -> serialWriter s' = true) /\
     ~ In (js "Disconnected") (statuses out)) /\
    (attaches_writer e = false -> serialWriter s = false ->
     serialWriter s' = false /\ writes out = []) /\
    logged_in out = line_of e.
Proof.
  destruct e as [[acq| |command|command|]|text];
    cbn [step onmessage attempts_release attaches_writer line_of].
  - (* connect *)
    destruct s as [q st a w r u].
    destruct acq; cbn; do 3 eexists; (split; [reflexivity|]); cbn;
      (split; [discriminate|]);
      (split; [|split; [try discriminate; auto|reflexivity]]);
      intros ->; (split; [reflexivity|]); (split; [auto|]);
      intros [Habs|[]]; unfold js in Habs; cbn in Habs; discriminate Habs.
  - (* disconnect *)
    destruct s as [q st a w r u].
    destruct r, w; cbn; do 3 eexists; (split; [reflexivity|]); cbn;
      (split; [discriminate|]);
      (split; [|split; [try discriminate; auto|reflexivity]]);
      try discriminate; intros _; repeat split; auto.
  - (* write *)
    rewrite writeCommand_eq.
    destruct (release_after (set_queue (queue s ++ [command]) s))
      as (s' & out & H & Hg & Hr & Hw & Hl).
    exists s', out, (Ok tt). split; [exact H|].
    split; [intros _; exact Hg|]. split; [exact Hr|].
    split; [intros _; exact Hw|exact Hl].
  - (* start-stream *)
    unfold bind at 1. rewrite writeCommand_eq.
    destruct (release_after (set_queue (queue s ++ [command]) s))
      as (s' & out & H & Hg & Hr & Hw & Hl).
    rewrite H. unfold assign. rewrite app_nil_r.
    do 3 eexists. split; [reflexivity|].
    split; [intros _; exact Hg|]. split; [exact Hr|].
    split; [intros _; exact Hw|exact Hl].
  - (* stop-stream *)
    unfold bind at 1, assign at 1. rewrite writeCommand_eq.
    destruct (release_after
                (set_queue (queue (set_stopUsbLoop true s) ++ [js "stop 1"])
                   (set_stopUsbLoop true s)))
      as (s' & out & H & Hg & Hr & Hw & Hl).
    rewrite H. cbn [app].
    do 3 eexists. split; [reflexivity|].
    split; [intros _; exact Hg|]. split; [exact Hr|].
    split; [intros _; exact Hw|exact Hl].
  - (* a line *)
    destruct (decodeLine_after (replace_first [LF] [] text) s)
      as (s1 & out1 & Hd & Hq1 & Hw1 & Hr1 & Hwr1 & Hl1 & Hst1 & _).
    destruct (handleQueue_after s1)
      as (s2 & out2 & Hh & Hg & _ & Hw2 & Hr2 & Hl2 & Hst2 & Hn).
    rewrite (readSerialLoop_line_eq _ _ _ _ _ _ Hd Hh).
    do 3 eexists. split; [reflexivity|].
    split; [intros _; exact Hg|]. split; [|split].
    + intros Hr. rewrite Hr2, Hr1, Hw2, Hw1. repeat split; auto.
      unfold statuses in *. cbn [flat_map app].
      rewrite flat_map_app, Hst1, Hst2. intros [].
    + intros _ Hw. rewrite Hw2, Hw1. split; [exact Hw|].
      assert (Hg1 : gate s1 = false) by (unfold gate; now rewrite Hw1, Hw).
      destruct (Hn Hg1) as [_ ->].
      unfold writes in *. cbn [flat_map app].
      now rewrite flat_map_app, Hwr1.
    + unfold logged_in in *. cbn [flat_map app].
      now rewrite flat_map_app, Hl1, Hl2.
Qed.

(** X1.  The worker never leaves a command waiting behind an open gate,
    after an event whose handler calls [handleQueue] (a write, a start or
    stop of the stream, a line read): when the gate is open after the
    event, the queue is empty. *)
Theorem no_command_left_waiting (e : Event) (s : Session Num) :
  attempts_release e = true ->
  gate (fst (fst (step e s))) = true ->
  queue (fst (fst (step e s))) = [].
Proof.
  intros He Hg.
  destruct (step_after e s) as (s' & out & r & Hs & H & _).
  rewrite Hs in *. cbn [fst] in *. now apply H.
Qed.

(** X2.  A connect does not call [handleQueue]: commands queued before the
    connection are not sent by the connect event, even when it succeeds and
    the gate is open; the first of them is sent by the next write, whose
    own command goes to the end of the queue.  A connect that fails on the
    USB side has attached the serial writer all the same. *)
Theorem connect_leaves_queue_waiting (acquisition : Acquisition)
    (s : Session Num) (c : jsstring) (q : list jsstring) (command : jsstring) :
  queue s = c :: q -> ackd s = true -> acceptable (state s) = true ->
  attaches_writer (on_message (connect acquisition)) = true ->
  writes (snd (fst (handleConnect acquisition s))) = [] /\
  gate (fst (fst (handleConnect acquisition s))) = true /\
  queue (fst (fst (handleConnect acquisition s))) = c :: q /\
  writes (snd (fst (writeCommand command
                      (fst (fst (handleConnect acquisition s))))))
  = [on_wire c] /\
  queue (fst (fst (writeCommand command
                     (fst (fst (handleConnect acquisition s))))))
  = q ++ [command].
Proof.
  intros Hq Ha Hst Hacq.
  assert (Hc : exists out,
             handleConnect acquisition s
             = (set_serialReader true (set_serialWriter true s), out, Ok tt)
             /\ writes out = []).
  { destruct acquisition as [m|m|]; [discriminate Hacq| |];
      eexists; split; reflexivity. }
  destruct Hc as (out & -> & Hout). cbn [fst snd].
  rewrite writeCommand_eq, handleQueue_eq.
  destruct s as [q0 st a w r u]. cbn [queue ackd state] in Hq, Ha, Hst.
  subst q0 a. unfold gate.
  cbn [set_queue set_serialReader set_serialWriter set_ackd queue state ackd
       serialWriter serialReader stopUsbLoop app andb fst snd].
  rewrite Hst.
  cbn [set_queue set_serialReader set_serialWriter set_ackd queue state ackd
       serialWriter serialReader stopUsbLoop app andb fst snd writes flat_map].
  repeat split; exact Hout.
Qed.

(** X3.  Once the serial side has been acquired, [handleDisconnect] cannot
    complete: [serialReader] holds the function made by [createLineReader],
    the call of its [cancel] throws, and so along every sequence of events
    the status ['Disconnected'] is never posted, [serialReader] stays set
    and a writer that is attached stays attached. *)
Theorem disconnect_never_completes (events : list Event) (s : Session Num) :
  serialReader s = true ->
  serialReader (fst (run events s)) = true /\
  (serialWriter s = true -> serialWriter (fst (run events s)) = true) /\
  ~ In (js "Disconnected") (statuses (snd (run events s))).
Proof.
  revert s. induction events as [|e events IH]; intros s Hr.
  - cbn. repeat split; auto.
  - cbn [run].
    destruct (step_after e s) as (s1 & out1 & r & Hs & _ & H & _).
    rewrite Hs. destruct (H Hr) as (Hr1 & Hw1 & Hn1).
    destruct (IH s1 Hr1) as (Hr2 & Hw2 & Hn2).
    destruct (run events s1) as [s2 out2]. cbn [fst snd] in *.
    split; [exact Hr2|]. split; [auto|].
    unfold statuses in *. rewrite flat_map_app, in_app_iff. tauto.
Qed.

(** X4.  Nothing is written to the port before a connect has attached the
    writer: along every sequence of events without such a connect, from a
    session without writer, no text is written and every command stays in
    the queue, in the order of arrival. *)
Theorem nothing_sent_unconnected (events : list Event) (s : Session Num) :
  serialWriter s = false ->
  Forall (fun e => attaches_writer e = false) events ->
  writes (snd (run events s)) = [] /\
  queue (fst (run events s)) = queue s ++ flat_map enqueued events /\
  serialWriter (fst (run events s)) = false.
Proof.
  intros Hw Hall. revert s Hw.
  induction Hall as [|e events He _ IH]; intros s Hw.
  - cbn. now rewrite app_nil_r.
  - cbn [run flat_map].
    destruct (step_after e s) as (s1 & out1 & r & Hs & _ & _ & H & _).
    destruct (step_effect e s) as (s1' & out1' & r' & Hs' & Hq & _).
    rewrite Hs in Hs'. injection Hs' as <- <- <-.
    rewrite Hs. destruct (H He Hw) as [Hw1 Hn1].
    rewrite Hn1 in Hq. cbn [app] in Hq. apply on_wire_inj in Hq.
    destruct (IH s1 Hw1) as (Hn2 & Hq2 & Hw2).
    destruct (run events s1) as [s2 out2]. cbn [fst snd] in *.
    unfold writes in *. rewrite flat_map_app, Hn1, Hn2, Hq2, Hq.
    now rewrite <- app_assoc.
Qed.

(** X5.  Only an acknowledgment read from the port opens the gate again:
    while [ackd] is false, along every sequence of events none of which is
    an acknowledging line, no text is written, [ackd] stays false and every
    command stays in the queue. *)
Theorem silent_without_acknowledgment (events : list Event)
    (s : Session Num) :
  ackd s = false ->
  Forall (fun e => acked_by e = false) events ->
  writes (snd (run events s)) = [] /\
  ackd (fst (run events s)) = false /\
  queue (fst (run events s)) = queue s ++ flat_map enqueued events.
Proof.
  intros Ha Hall. revert s Ha.
  induction Hall as [|e events He _ IH]; intros s Ha.
  - cbn. now rewrite app_nil_r.
  - cbn [run flat_map].
    destruct (step_effect e s) as (s1 & out1 & r & Hs & Hq & Hcase).
    rewrite Hs. rewrite Ha, He in Hcase.
    destruct Hcase as [[Hn1 Ha1]|(cmd & _ & Habs & _)]; [|discriminate Habs].
    rewrite Hn1 in Hq. cbn [app] in Hq. apply on_wire_inj in Hq.
    destruct (IH s1 Ha1) as (Hn2 & Ha2 & Hq2).
    destruct (run events s1) as [s2 out2]. cbn [fst snd] in *.
    unfold writes in *. rewrite flat_map_app, Hn1, Hn2, Hq2, Hq.
    now rewrite <- app_assoc.
Qed.

(** X6.  Every line read from the port is posted to the log once, with
    direction ['in'], before it is decoded and whether or not it decodes;
    no other event posts with that direction.  So along every sequence of
    events the ['in'] messages are the lines read, in order, each without
    its first line feed. *)
Theorem lines_logged_in_order (events : list Event) (s : Session Num) :
  logged_in (snd (run events s)) = flat_map line_of events.
Proof.
  revert s. induction events as [|e events IH]; intros s; [reflexivity|].
  cbn [run flat_map].
  destruct (step_after e s) as (s1 & out1 & r & Hs & _ & _ & _ & Hl).
  rewrite Hs. specialize (IH s1).
  destruct (run events s1) as [s2 out2]. cbn [fst snd] in *.
  unfold logged_in in *. now rewrite flat_map_app, Hl, IH.
Qed.

(** X7.  A line that parses to an object is handled field by field, and
    the three fields do not interfere: [ackd] is raised when [acknowledge]
    is truthy and never lowered; [state] takes the value of [evm_state]
    when that is truthy, of whatever type it is; one register message is
    posted when [register] is truthy, with the [address] and [value] found
    in it, [undefined] where they are missing or [register] is no object.
    No exception occurs, the queue is not touched and nothing is written
    to the port. *)
Theorem record_fields (text : jsstring)
    (props : list (jsstring * JsValue Num)) (s : Session Num) :
  JSON_parse text = Some (JObject props) ->
  exists s' out,
    decodeLine text s = (s', out, Ok tt) /\
    ackd s' = ackd s || truthy_opt (own_property (js "acknowledge") props) /\
    state s' = match own_property (js "evm_state") props with
               | Some v => if truthy v then v else state s
               | None => state s
               end /\
    out = match own_property (js "register") props with
          | Some reg =>
              if truthy reg
              then [post_register (field reg (js "address"))
                                  (field reg (js "value"))]
              else []
          | None => []
          end /\
    queue s' = queue s /\ serialWriter s' = serialWriter s.
Proof.
  intros Hp. destruct s as [q st a w r u].
  unfold decodeLine, try_catch, decode_body, member, field.
  rewrite Hp. unfold get_property.
  destruct (own_property (js "acknowledge") props) as [va|];
    destruct (own_property (js "evm_state") props) as [ve|];
    destruct (own_property (js "register") props) as [vr|];
    unfold bind, when, ret, assign, emit, throw, truthy_opt; cbn;
    try destruct (truthy va); try destruct (truthy ve);
    try (destruct vr as [|b|n|str|items|rprops]; cbn;
         try destruct b; try destruct (number_truthy n);
         try destruct (negb (jslength str =? 0));
         try destruct (own_property (js "address") rprops);
         try destruct (own_property (js "value") rprops); cbn);
    do 2 eexists; (split; [reflexivity|]); cbn;
    rewrite ?orb_true_r, ?orb_false_r; repeat split; auto.
Qed.

(** The earlier worker: one command message. *)
Lemma legacy_command_effect (m : Message) (s : Session Num) handler :
  legacy_command m = Some handler ->
  exists s' out r,
    handler s = (s', out, r) /\
    serialWriter s' = serialWriter s /\ ackd s' = ackd s /\
    writes out
    = if serialWriter s then map on_wire (legacy_carried m) else [].
Proof.
  destruct s as [q st a w r u].
  destruct m as [acq| |command|command|]; cbn [legacy_command legacy_carried];
    intros H; try discriminate H; injection H as <-;
    destruct w; cbn; do 3 eexists; (split; [reflexivity|]); cbn; auto.
Qed.

(** X8.  The earlier worker has no queue and no gate: with a writer
    attached every command is written at the moment its message is handled,
    whether or not the one before has been acknowledged, so that the texts
    written are the commands in their order; without a writer the commands
    are dropped, and nothing is written. *)
Theorem legacy_sends_at_once (messages : list Message) (s : Session Num) :
  Forall (fun m => legacy_command m <> None) messages ->
  writes (snd (legacy_run messages s))
  = if serialWriter s then map on_wire (flat_map legacy_carried messages)
    else [].
Proof.
  intros Hall. revert s.
  induction Hall as [|m messages Hm _ IH]; intros s.
  - cbn. now destruct (serialWriter s).
  - cbn [legacy_run flat_map].
    destruct (legacy_command m) as [handler|] eqn:Ec; [|now contradiction Hm].
    destruct (legacy_command_effect m s handler Ec)
      as (s1 & out1 & r & Hs & Hw & _ & Hout).
    rewrite Hs. specialize (IH s1).
    destruct (legacy_run messages s1) as [s2 out2]. cbn [fst snd] in *.
    unfold writes in *. rewrite flat_map_app, Hout, IH, Hw.
    destruct (serialWriter s); [now rewrite map_app|reflexivity].
Qed.

End Script.

(** C1, on an example: two commands are enqueued on a connected worker; the
    first is sent at once, the second only after the acknowledgment. *)
Lemma single_flight_witness :
  trace Z Z_truthy Z_toString sample_parse
    [on_message (connect acquired); on_message (write (js "a"));
     on_message (write (js "b")); on_line ack_text] initial
  = [Sent (on_wire (js "a")); Acked; Sent (on_wire (js "b"))] ++ [] /\
  (in_flight 0 [Sent (on_wire (js "a")); Acked; Sent (on_wire (js "b"))]
   <= 1)%nat.
Proof.
  split; [reflexivity|].
  apply (proj2 (proj2 (single_flight Z Z_truthy Z_toString sample_parse initial
           [on_message (connect acquired); on_message (write (js "a"));
            on_message (write (js "b")); on_line ack_text]))
           [Sent (on_wire (js "a")); Acked; Sent (on_wire (js "b"))] []).
  reflexivity.
Defined.

(** C9, on an example: a line that is no JSON text. *)
Lemma decoder_ignores_malformed_witness :
  is_record Z sample_parse (js "not json") = false /\
  decodeLine Z Z_truthy sample_parse (js "not json") initial
  = (initial, [], Ok tt).
Proof.
  split; [reflexivity|].
  apply (proj2 (proj2 (decoder_ignores_malformed Z Z_truthy sample_parse
                         (js "not json") initial))).
  reflexivity.
Defined.

(** C5, as stated, fails: a command written before the connection is
    still queued after the connect event. *)
Lemma connect_resets_counterexample :
  queue (fst (run Z Z_truthy Z_toString sample_parse
                [on_message (write (js "start 1"));
                 on_message (connect acquired)] initial))
  = [js "start 1"] /\
  queue (fst (run Z Z_truthy Z_toString sample_parse
                [on_message (write (js "start 1"));
                 on_message (connect acquired)] initial))
  <> [].
Proof. split; [reflexivity|discriminate]. Qed.

(** X1, on an example: the gate opens on an acknowledgment with nothing
    queued; the queue is empty behind the open gate. *)
Lemma no_command_left_waiting_witness :
  attempts_release (on_line ack_text) = true /\
  gate Z Z_toString
    (fst (fst (step Z Z_truthy Z_toString sample_parse (on_line ack_text)
                 (mkSession [] (JString (js "idle")) false true true false))))
  = true /\
  queue (fst (fst (step Z Z_truthy Z_toString sample_parse (on_line ack_text)
                     (mkSession [] (JString (js "idle")) false true true
                                false))))
  = [].
Proof.
  split; [reflexivity|]. split; [reflexivity|].
  apply (no_command_left_waiting Z Z_truthy Z_toString sample_parse
           (on_line ack_text)
           (mkSession [] (JString (js "idle")) false true true false));
    reflexivity.
Defined.

(** X2, on an example: two commands are queued, then a connect finds no
    USB device: nothing is sent; the next write sends the first command. *)
Lemma connect_leaves_queue_waiting_witness :
  (queue (mkSession (Num := Z) [js "a"; js "b"] (JString (js "idle"))
                    true false false false) = [js "a"; js "b"] /\
   attaches_writer (on_message (connect (no_usb (js "No USB device granted."))))
   = true) /\
  writes Z (snd (fst (writeCommand Z Z_toString (js "c")
                      (fst (fst (handleConnect Z
                                   (no_usb (js "No USB device granted."))
                                   (mkSession [js "a"; js "b"]
                                      (JString (js "idle"))
                                      true false false false)))))))
  = [on_wire (js "a")].
Proof.
  split; [split; reflexivity|].
  exact (proj1 (proj2 (proj2 (proj2
           (connect_leaves_queue_waiting Z Z_toString
              (no_usb (js "No USB device granted."))
              (mkSession [js "a"; js "b"] (JString (js "idle"))
                         true false false false)
              (js "a") [js "b"] (js "c") eq_refl eq_refl eq_refl eq_refl))))).
Defined.

(** X3, on an example: a disconnect on a connected worker, then a write. *)
Lemma disconnect_never_completes_witness :
  serialReader (mkSession (Num := Z) [] (JString (js "idle"))
                          true true true false) = true /\
  serialReader
    (fst (run Z Z_truthy Z_toString sample_parse
            [on_message disconnect; on_message (write (js "a"))]
            (mkSession [] (JString (js "idle")) true true true false)))
  = true.
Proof.
  split; [reflexivity|].
  exact (proj1 (disconnect_never_completes Z Z_truthy Z_toString sample_parse
                  [on_message disconnect; on_message (write (js "a"))]
                  (mkSession [] (JString (js "idle")) true true true false)
                  eq_refl)).
Defined.

(** X4, on an example: before the connection, a write, a connect without
    serial port, an acknowledgment, a stop. *)
Lemma nothing_sent_unconnected_witness :
  (serialWriter (@initial Z) = false /\
   Forall (fun e => attaches_writer e = false)
     [on_message (write (js "a"));
      on_message (connect (no_serial (js "No serial port granted.")));
      on_line ack_text; on_message stop_stream]) /\
  writes Z (snd (run Z Z_truthy Z_toString sample_parse
                 [on_message (write (js "a"));
                  on_message (connect (no_serial
                                         (js "No serial port granted.")));
                  on_line ack_text; on_message stop_stream] initial))
  = [].
Proof.
  assert (H : Forall (fun e => attaches_writer e = false)
                [on_message (write (js "a"));
                 on_message (connect (no_serial
                                        (js "No serial port granted.")));
                 on_line ack_text; on_message stop_stream])
    by (repeat constructor).
  split; [split; [reflexivity|exact H]|].
  exact (proj1 (nothing_sent_unconnected Z Z_truthy Z_toString sample_parse
                  _ initial eq_refl H)).
Defined.

(** X5, on an example: a command is in flight; two writes and a line that
    is no acknowledgment follow. *)
Lemma silent_without_acknowledgment_witness :
  (ackd (mkSession (Num := Z) [] (JString (js "idle"))
                   false true true false) = false /\
   Forall (fun e => acked_by Z Z_truthy sample_parse e = false)
     [on_message (write (js "a")); on_line (js "busy");
      on_message (write (js "b"))]) /\
  queue (fst (run Z Z_truthy Z_toString sample_parse
                [on_message (write (js "a")); on_line (js "busy");
                 on_message (write (js "b"))]
                (mkSession [] (JString (js "idle")) false true true false)))
  = [] ++ [js "a"; js "b"].
Proof.
  assert (H : Forall (fun e => acked_by Z Z_truthy sample_parse e = false)
                [on_message (write (js "a")); on_line (js "busy");
                 on_message (write (js "b"))])
    by (repeat constructor).
  split; [split; [reflexivity|exact H]|].
  exact (proj2 (proj2
           (silent_without_acknowledgment Z Z_truthy Z_toString sample_parse _
              (mkSession [] (JString (js "idle")) false true true false)
              eq_refl H))).
Defined.

(** X7, on an example: the acknowledgment record; [ackd] is raised and
    nothing is posted. *)
Lemma record_fields_witness :
  sample_parse ack_text = Some (JObject [(js "acknowledge", JBool true)]) /\
  exists s' out,
    decodeLine Z Z_truthy sample_parse ack_text
      (mkSession [] (JString (js "idle")) false true true false)
    = (s', out, Ok tt) /\
    ackd s' = true /\ out = [].
Proof.
  split; [reflexivity|].
  destruct (record_fields Z Z_truthy sample_parse ack_text
              [(js "acknowledge", JBool true)]
              (mkSession [] (JString (js "idle")) false true true false)
              eq_refl)
    as (s' & out & H & Ha & _ & Ho & _).
  exists s', out. split; [exact H|]. split; [exact Ha|exact Ho].
Defined.

(** X8, on an example: three commands on a connected session of the
    earlier worker. *)
Lemma legacy_sends_at_once_witness :
  Forall (fun m => legacy_command Z m <> None)
    [write (js "a"); write (js "b"); stop_stream] /\
  writes Z (snd (legacy_run Z [write (js "a"); write (js "b"); stop_stream]
                 (mkSession [] (JString (js "idle")) true true true false)))
  = [on_wire (js "a"); on_wire (js "b"); on_wire (js "stop")].
Proof.
  assert (H : Forall (fun m => legacy_command Z m <> None)
                [write (js "a"); write (js "b"); stop_stream])
    by (repeat constructor; discriminate).
  split; [exact H|].
  apply (legacy_sends_at_once Z _
           (mkSession [] (JString (js "idle")) true true true false) H).
Defined.

End Worker.


(* ================================================================== *)
(** * Facts about string search *)

Lemma indexOf_ge (n h : jsstring) : -1 <= indexOf n h.
Proof.
  induction h as [|c h IH]; simpl.
  - destruct (starts_with n []); lia.
  - destruct (starts_with n (c :: h)); [lia|].
    destruct (indexOf n h =? -1) eqn:E; lia.
Qed.

Lemma starts_with_CRLF (h : jsstring) :
  starts_with CRLF h = true <-> exists r, h = CR :: LF :: r.
Proof.
  split.
  - unfold CRLF. destruct h as [|a [|b r]]; cbn [starts_with];
      try discriminate.
    + rewrite andb_false_r; discriminate.
    + rewrite andb_true_r. intros H.
      apply andb_prop in H as [Ha Hb].
      apply Ascii.eqb_eq in Ha, Hb. subst. now exists r.
  - intros [r ->]. reflexivity.
Qed.

Lemma indexOf_hit (n h : jsstring) :
  starts_with n h = true -> indexOf n h = 0.
Proof. intros H. destruct h; cbn [indexOf]; now rewrite H. Qed.

Lemma indexOf_cons_miss (n : jsstring) c h :
  starts_with n (c :: h) = false ->
  indexOf n (c :: h) = if indexOf n h =? -1 then -1 else indexOf n h + 1.
Proof. intros H. cbn [indexOf]. now rewrite H. Qed.

(** The delimiter, once found in a text, is found at the same place in
    every extension of the text. *)
Lemma indexOf_CRLF_app (h y : jsstring) :
  indexOf CRLF h <> -1 -> indexOf CRLF (h ++ y) = indexOf CRLF h.
Proof.
  induction h as [|c h IH]; intros Hf.
  - now contradiction Hf.
  - destruct (starts_with CRLF (c :: h)) eqn:E.
    + apply starts_with_CRLF in E as [r E]. rewrite E. reflexivity.
    + rewrite (indexOf_cons_miss _ _ _ E) in Hf |- *.
      destruct (indexOf CRLF h =? -1) eqn:E1; [now contradiction Hf|].
      apply Z.eqb_neq in E1.
      rewrite <- app_comm_cons.
      assert (E2 : starts_with CRLF (c :: (h ++ y)) = false).
      { destruct (starts_with CRLF (c :: (h ++ y))) eqn:E3; [|reflexivity].
        apply starts_with_CRLF in E3 as [r E3].
        destruct h as [|d h].
        - now contradiction E1.
        - simpl in E3. injection E3 as -> -> _. discriminate E. }
      rewrite (indexOf_cons_miss _ _ _ E2), (IH E1).
      apply Z.eqb_neq in E1. now rewrite E1.
Qed.

Lemma indexOf_CRLF_app_none (h y : jsstring) :
  indexOf CRLF (h ++ y) = -1 -> indexOf CRLF h = -1.
Proof.
  intros H. destruct (Z.eq_dec (indexOf CRLF h) (-1)) as [E|E]; [exact E|].
  rewrite (indexOf_CRLF_app _ y E) in H. contradiction.
Qed.

(** Where the delimiter is found, two characters fit behind the index. *)
Lemma indexOf_CRLF_bound (h : jsstring) :
  indexOf CRLF h <> -1 ->
  0 <= indexOf CRLF h /\ indexOf CRLF h + 2 <= jslength h.
Proof.
  unfold jslength. induction h as [|c h IH]; intros Hf.
  - now contradiction Hf.
  - destruct (starts_with CRLF (c :: h)) eqn:E.
    + apply starts_with_CRLF in E as [r E]. rewrite E.
      change (indexOf CRLF (CR :: LF :: r)) with 0. simpl length. lia.
    + rewrite (indexOf_cons_miss _ _ _ E) in Hf |- *.
      destruct (indexOf CRLF h =? -1) eqn:E1; [now contradiction Hf|].
      apply Z.eqb_neq in E1. specialize (IH E1). simpl length. lia.
Qed.

(** A line without delimiter, followed by the delimiter: the first
    delimiter of the text is the one behind the line. *)
Lemma indexOf_CRLF_line (l x : jsstring) :
  indexOf CRLF l = -1 -> indexOf CRLF (l ++ CRLF ++ x) = jslength l.
Proof.
  unfold jslength. induction l as [|c l IH]; intros Hl.
  - reflexivity.
  - assert (E : starts_with CRLF (c :: l) = false).
    { destruct (starts_with CRLF (c :: l)) eqn:E; [|reflexivity].
      rewrite (indexOf_hit _ _ E) in Hl. discriminate. }
    rewrite (indexOf_cons_miss _ _ _ E) in Hl.
    destruct (indexOf CRLF l =? -1) eqn:E1.
    2:{ pose proof (indexOf_ge CRLF l). apply Z.eqb_neq in E1. lia. }
    apply Z.eqb_eq in E1.
    rewrite <- app_comm_cons.
    assert (E2 : starts_with CRLF (c :: (l ++ CRLF ++ x)) = false).
    { destruct (starts_with CRLF (c :: (l ++ CRLF ++ x))) eqn:E3;
        [|reflexivity].
      apply starts_with_CRLF in E3 as [r E3].
      destruct l as [|d l].
      - simpl in E3. injection E3 as -> E3. discriminate E3.
      - simpl in E3. injection E3 as -> -> _. discriminate E. }
    rewrite (indexOf_cons_miss _ _ _ E2), (IH E1).
    simpl length.
    destruct (Z.of_nat (length l) =? -1) eqn:E4; [apply Z.eqb_eq in E4|]; lia.
Qed.

Lemma slice_prefix (s : jsstring) (i : Z) :
  0 <= i <= jslength s -> slice s 0 i = firstn (Z.to_nat i) s.
Proof.
  unfold slice, jslength. intros H.
  destruct (i <? 0) eqn:E; [apply Z.ltb_lt in E; lia|].
  change (0 <? 0) with false. cbv iota.
  rewrite (Z.min_l 0) by lia. rewrite Z.min_l by lia.
  now rewrite Z.sub_0_r.
Qed.

Lemma slice_from_suffix (s : jsstring) (i : Z) :
  0 <= i <= jslength s -> slice_from s i = skipn (Z.to_nat i) s.
Proof.
  unfold slice_from, slice, jslength. intros H.
  destruct (i <? 0) eqn:E; [apply Z.ltb_lt in E; lia|].
  destruct (Z.of_nat (length s) <? 0) eqn:E1; [apply Z.ltb_lt in E1; lia|].
  rewrite (Z.min_l i) by lia. rewrite Z.min_id.
  apply firstn_all2. rewrite length_skipn. lia.
Qed.

Lemma app_split_at {A} (a c p q : list A) :
  a ++ c = p ++ q -> (length p <= length a)%nat ->
  firstn (length p) a = p /\ skipn (length p) a ++ c = q.
Proof.
  revert a. induction p as [|x p IH]; intros a H Hl.
  - now simpl in *.
  - destruct a as [|y a]; [simpl in Hl; lia|].
    simpl in H. injection H as -> H. simpl in Hl.
    destruct (IH a H ltac:(lia)) as [H1 H2].
    simpl. now rewrite H1.
Qed.

(* ================================================================== *)
(** * The line reader *)

Section LineReaderFacts.
Import LineReader.

Lemma readLine_loop_found (buffer : jsstring) (reader : list jsstring) :
  indexOf CRLF buffer <> -1 ->
  readLine_loop buffer reader =
    (Some (slice buffer 0 (indexOf CRLF buffer)),
     mk (slice_from buffer (indexOf CRLF buffer + 2)) reader).
Proof.
  intros H. apply Z.eqb_neq in H.
  destruct reader; cbn [readLine_loop]; now rewrite H.
Qed.

Lemma readLine_loop_read (buffer value : jsstring) (reader : list jsstring) :
  indexOf CRLF buffer = -1 ->
  readLine_loop buffer (value :: reader) =
    readLine_loop (buffer ++ value) reader.
Proof. intros H. cbn [readLine_loop]. now rewrite H. Qed.

Lemma readLine_loop_done (buffer : jsstring) :
  indexOf CRLF buffer = -1 ->
  readLine_loop buffer [] =
    if jslength buffer >? 0 then (Some buffer, mk [] [])
    else (None, mk buffer []).
Proof. intros H. cbn [readLine_loop]. now rewrite H. Qed.

Lemma readLine_loop_found_line (l x : jsstring) :
  no_delimiter l ->
  forall reader buffer,
    buffer ++ concat reader = l ++ CRLF ++ x ->
    indexOf CRLF buffer <> -1 ->
    exists buffer',
      readLine_loop buffer reader = (Some l, mk buffer' reader) /\
      buffer' ++ concat reader = x /\
      (length buffer' < length buffer)%nat.
Proof.
  intros Hl reader buffer Heq E.
  pose proof (indexOf_CRLF_line l x Hl) as Hx.
  rewrite (readLine_loop_found _ _ E).
  pose proof (indexOf_CRLF_app buffer (concat reader) E) as Ha.
  rewrite Heq, Hx in Ha.
  pose proof (indexOf_CRLF_bound buffer E) as [Hb1 Hb2].
  rewrite <- Ha in *. unfold jslength in Hb2.
  rewrite slice_prefix by (unfold jslength; lia).
  rewrite slice_from_suffix by (unfold jslength; lia).
  unfold jslength. rewrite Nat2Z.id.
  replace (Z.to_nat (Z.of_nat (length l) + 2)) with (length (l ++ CRLF))
    by (rewrite length_app; simpl; lia).
  rewrite app_assoc in Heq.
  destruct (app_split_at _ _ _ _ Heq) as [H1 H2].
  { rewrite length_app. simpl. lia. }
  exists (skipn (length (l ++ CRLF)) buffer).
  split; [|split].
  - f_equal. f_equal.
    apply (f_equal (firstn (length l))) in H1.
    rewrite firstn_firstn, Nat.min_l in H1 by (rewrite length_app; lia).
    rewrite H1, firstn_app, Nat.sub_diag, firstn_all. simpl.
    apply app_nil_r.
  - exact H2.
  - rewrite length_skipn, length_app. simpl. lia.
Qed.

(** When the text still to be framed starts with a line and its delimiter,
    the next [readLine()] returns that line, keeps the rest of the text, and
    leaves a smaller reader. *)
Lemma readLine_loop_line (l x : jsstring) :
  no_delimiter l ->
  forall reader buffer,
    buffer ++ concat reader = l ++ CRLF ++ x ->
    exists buffer' reader',
      readLine_loop buffer reader = (Some l, mk buffer' reader') /\
      buffer' ++ concat reader' = x /\
      (size (mk buffer' reader') < size (mk buffer reader))%nat.
Proof.
  intros Hl. pose proof (indexOf_CRLF_line l x Hl) as Hx.
  intros chunks. induction chunks as [|value reader IH]; intros buffer Heq;
    destruct (Z.eq_dec (indexOf CRLF buffer) (-1)) as [E|E].
  - exfalso. cbn [concat] in Heq. rewrite app_nil_r in Heq. subst buffer.
    unfold jslength in Hx. lia.
  - destruct (readLine_loop_found_line l x Hl _ _ Heq E) as (b' & H1 & H2 & H3).
    exists b', []. split; [exact H1|split; [exact H2|]].
    unfold size. simpl. lia.
  - rewrite (readLine_loop_read _ _ _ E).
    destruct (IH (buffer ++ value)) as (b' & r' & H1 & H2 & H3).
    { rewrite <- app_assoc. exact Heq. }
    exists b', r'. split; [exact H1|split; [exact H2|]].
    revert H3. unfold size. simpl. rewrite !length_app. lia.
  - destruct (readLine_loop_found_line l x Hl _ _ Heq E) as (b' & H1 & H2 & H3).
    exists b', (value :: reader). split; [exact H1|split; [exact H2|]].
    unfold size. simpl. lia.
Qed.

(** When no delimiter is left in the text still to be framed, the next
    [readLine()] reads the stream to its end and returns the whole
    remainder, or [null] when there is none. *)
Lemma readLine_loop_rest :
  forall reader buffer,
    no_delimiter (buffer ++ concat reader) ->
    readLine_loop buffer reader =
      match buffer ++ concat reader with
      | [] => (None, mk [] [])
      | rest => (Some rest, mk [] [])
      end.
Proof.
  intros chunks. induction chunks as [|value reader IH]; intros buffer H.
  - cbn [concat] in *. rewrite app_nil_r in *.
    rewrite (readLine_loop_done buffer H).
    destruct buffer; reflexivity.
  - pose proof (indexOf_CRLF_app_none _ _ H) as E.
    rewrite (readLine_loop_read _ _ _ E).
    cbn [concat] in *. rewrite app_assoc in *. now apply IH.
Qed.

(** The lines emitted from a reader whose remaining text is a sequence of
    terminated lines followed by an unterminated remainder. *)
Lemma drain_lines (lines : list jsstring) (rest : jsstring) :
  Forall no_delimiter lines -> no_delimiter rest ->
  forall fuel r,
    buffer r ++ concat (reader r) = terminated lines ++ rest ->
    (size r + 1 < fuel)%nat ->
    drain fuel r = Some (lines ++ final_line rest).
Proof.
  intros Hlines Hrest.
  induction Hlines as [|l lines Hl _ IH]; intros fuel [b rd] Heq Hfuel;
    cbn [buffer reader terminated app] in Heq.
  - destruct fuel as [|[|fuel]]; try lia.
    cbn [drain]. unfold readLine. cbn [buffer reader].
    rewrite readLine_loop_rest by (now rewrite Heq).
    rewrite Heq. destruct rest; [reflexivity|].
    unfold readLine. cbn [buffer reader].
    rewrite (readLine_loop_done []) by reflexivity. reflexivity.
  - rewrite <- !app_assoc in Heq.
    destruct (readLine_loop_line l _ Hl rd b Heq) as (b' & r' & H1 & H2 & H3).
    destruct fuel as [|fuel]; [lia|].
    cbn [drain]. unfold readLine. cbn [buffer reader]. rewrite H1.
    rewrite (IH fuel (mk b' r')); [reflexivity|exact H2|lia].
Qed.

(** Where the delimiter is found, the text is a delimiter-free line, the
    delimiter, and the rest. *)
Lemma indexOf_CRLF_split (h : jsstring) :
  indexOf CRLF h <> -1 ->
  exists l x, h = l ++ CRLF ++ x /\ no_delimiter l.
Proof.
  induction h as [|c h IH]; intros Hf.
  - now contradiction Hf.
  - destruct (starts_with CRLF (c :: h)) eqn:E.
    + apply starts_with_CRLF in E as [r E].
      exists [], r. split; [exact E|reflexivity].
    + rewrite (indexOf_cons_miss _ _ _ E) in Hf.
      destruct (indexOf CRLF h =? -1) eqn:E1; [now contradiction Hf|].
      apply Z.eqb_neq in E1.
      destruct (IH E1) as (l & x & -> & Hl).
      exists (c :: l), x. split; [reflexivity|].
      unfold no_delimiter in *.
      assert (E2 : starts_with CRLF (c :: l) = false).
      { destruct (starts_with CRLF (c :: l)) eqn:E3; [|reflexivity].
        apply starts_with_CRLF in E3 as [r E3].
        destruct l as [|d l]; [discriminate E3|].
        injection E3 as -> -> _. discriminate E. }
      rewrite (indexOf_cons_miss _ _ _ E2), Hl. reflexivity.
Qed.

(** Every text is a sequence of terminated, delimiter-free lines followed
    by a delimiter-free remainder. *)
Lemma text_decomposes (text : jsstring) :
  exists lines rest,
    Forall no_delimiter lines /\ no_delimiter rest /\
    text = terminated lines ++ rest.
Proof.
  remember (length text) as n eqn:Hn.
  revert text Hn. induction n as [n IH] using (well_founded_induction lt_wf).
  intros text Hn.
  destruct (Z.eq_dec (indexOf CRLF text) (-1)) as [E|E].
  - exists [], text. repeat split; auto.
  - destruct (indexOf_CRLF_split text E) as (l & x & -> & Hl).
    destruct (IH (length x)) with (text := x)
      as (lines & rest & H1 & H2 & ->); [|reflexivity|].
    { subst n. rewrite !length_app. simpl. lia. }
    exists (l :: lines), rest. repeat split; auto.
    cbn [terminated]. now rewrite <- !app_assoc.
Qed.

(** The lines emitted for a stream whose text is a sequence of terminated
    lines and a remainder. *)
Lemma emitted_lines (lines : list jsstring) (rest : jsstring)
    (chunks : list jsstring) :
  Forall no_delimiter lines -> no_delimiter rest ->
  concat chunks = terminated lines ++ rest ->
  emitted chunks = Some (lines ++ final_line rest).
Proof.
  intros Hl Hr Hc. unfold emitted.
  apply (drain_lines lines rest Hl Hr); [exact Hc|lia].
Qed.

(** Every stream is of that kind: the reader always ends, and the lines it
    emits are a function of the concatenation of the chunks alone. *)
Lemma emitted_of_concat (chunks chunks' : list jsstring) :
  concat chunks = concat chunks' ->
  emitted chunks = emitted chunks' /\ emitted chunks <> None.
Proof.
  intros H.
  destruct (text_decomposes (concat chunks)) as (lines & rest & Hl & Hr & Hc).
  rewrite (emitted_lines lines rest chunks Hl Hr Hc).
  rewrite (emitted_lines lines rest chunks' Hl Hr) by congruence.
  split; [reflexivity|discriminate].
Qed.

End LineReaderFacts.

(* ================================================================== *)
(** * The telemetry decoder *)

Section TelemetryFacts.
Import Telemetry.

Lemma byte_value_range (b : byte) : 0 <= byte_value b < 256.
Proof.
  unfold byte_value. pose proof (Byte.to_N_bounded b). lia.
Qed.

Lemma byte_value_of (z : Z) : 0 <= z < 256 -> byte_value (byte_of z) = z.
Proof.
  intros H. unfold byte_value, byte_of.
  destruct (Byte.of_N (Z.to_N z)) as [b|] eqn:E.
  - apply Byte.to_of_N in E. rewrite E. lia.
  - apply Byte.of_N_None_iff in E. lia.
Qed.

Lemma byte_value_zero (b : byte) : byte_value b = 0 <-> b = x00.
Proof.
  split.
  - intros H. unfold byte_value in H.
    assert (E : Byte.to_N b = Byte.to_N x00)
      by (change (Byte.to_N x00) with 0%N; lia).
    apply (f_equal Byte.of_N) in E. rewrite !Byte.of_to_N in E.
    now injection E.
  - intros ->. reflexivity.
Qed.

(** Reading inside the view. *)
Lemma getUint8_app (pre post : list byte) (b : byte) (i : Z) :
  i = Z.of_nat (length pre) ->
  getUint8 (pre ++ b :: post) i = Some (byte_value b).
Proof.
  intros ->. unfold getUint8.
  destruct (Z.of_nat (length pre) <? 0) eqn:E; [apply Z.ltb_lt in E; lia|].
  rewrite Nat2Z.id, nth_error_app2, Nat.sub_diag by lia. reflexivity.
Qed.

Lemma getUint8_inside (dataView : list byte) (i : Z) :
  0 <= i < byteLength dataView ->
  exists b, getUint8 dataView i = Some (byte_value b) /\
            nth_error dataView (Z.to_nat i) = Some b.
Proof.
  unfold byteLength, getUint8. intros H.
  destruct (i <? 0) eqn:E; [apply Z.ltb_lt in E; lia|].
  destruct (nth_error dataView (Z.to_nat i)) as [b|] eqn:E1.
  - now exists b.
  - apply nth_error_None in E1. lia.
Qed.

(** The value loop reads the bytes behind the header one after the other. *)
Lemma for_range_bytes {A} (g : A -> Z -> A) (offset : Z) :
  forall (vs pre post : list byte) (i : Z) (acc : A),
    offset + 4 + i = Z.of_nat (length pre) ->
    for_range (length vs) i
      (fun i a =>
         match getUint8 (pre ++ vs ++ post) (offset + 4 + i) with
         | Some b => Some (g a b)
         | None => None
         end) acc
    = Some (fold_left (fun a b => g a (byte_value b)) vs acc).
Proof.
  induction vs as [|v vs IH]; intros pre post i acc Hi.
  - reflexivity.
  - cbn [length for_range fold_left].
    rewrite <- app_comm_cons, (getUint8_app pre (vs ++ post) v _ Hi).
    replace (pre ++ v :: vs ++ post) with ((pre ++ [v]) ++ vs ++ post)
      by (now rewrite <- app_assoc).
    apply IH. rewrite length_app. simpl length. lia.
Qed.

Lemma assemble_bytes (pre vs post : list byte) (offset : Z) :
  offset + 4 = Z.of_nat (length pre) ->
  assemble (pre ++ vs ++ post) offset (Z.of_nat (length vs))
  = Some (value_of_bytes vs).
Proof.
  intros H. unfold assemble, value_of_bytes, big_value, int32_value.
  rewrite Nat2Z.id.
  destruct (Z.of_nat (length vs) >? 4);
    rewrite for_range_bytes by lia; reflexivity.
Qed.

Lemma byteLength_app (a b : list byte) :
  byteLength (a ++ b) = byteLength a + byteLength b.
Proof. unfold byteLength. rewrite length_app. lia. Qed.

(** A non-sentinel byte: the scan moves one byte on. *)
Lemma scan_body_skip (pre post : list byte) (b : byte) offset updates :
  offset = Z.of_nat (length pre) -> b <> x00 ->
  scan_body (pre ++ b :: post) offset updates = Continue (offset + 1) updates.
Proof.
  intros Ho Hb. unfold scan_body. rewrite (getUint8_app _ _ _ _ Ho).
  destruct (byte_value b =? 0) eqn:E; [|reflexivity].
  apply Z.eqb_eq, byte_value_zero in E. contradiction.
Qed.

(** A record that fits: it is decoded and the scan moves behind it. *)
Lemma scan_body_record (pre vs post : list byte) (reserved : byte)
    (A N : Z) offset updates :
  offset = Z.of_nat (length pre) -> 0 <= A < 256 ->
  N = Z.of_nat (length vs) -> N < 256 ->
  scan_body (pre ++ header reserved A N ++ vs ++ post) offset updates
  = Continue (offset + 4 + N)
             (updates ++ [mkUpdate A (value_of_bytes vs)]).
Proof.
  intros Ho HA HN HN'. unfold scan_body, header.
  assert (Hlen : byteLength (pre ++ [x00; reserved; byte_of A; byte_of N]
                               ++ vs ++ post)
                 = offset + 4 + N + byteLength post).
  { rewrite !byteLength_app. unfold byteLength. simpl length. lia. }
  rewrite Hlen.
  cbn [app]. rewrite (getUint8_app _ _ _ _ Ho).
  change (byte_value x00 =? 0) with true. cbn [negb].
  assert (Hp : 0 <= byteLength post) by (unfold byteLength; lia).
  destruct (offset + 4 >? offset + 4 + N + byteLength post) eqn:E1;
    [apply Z.gtb_lt in E1; lia|].
  replace (pre ++ x00 :: reserved :: byte_of A :: byte_of N :: vs ++ post)
    with ((pre ++ [x00; reserved]) ++ byte_of A :: byte_of N :: vs ++ post)
    by (now rewrite <- app_assoc).
  rewrite getUint8_app by (rewrite length_app; simpl length; lia).
  replace ((pre ++ [x00; reserved]) ++ byte_of A :: byte_of N :: vs ++ post)
    with ((pre ++ [x00; reserved; byte_of A]) ++ byte_of N :: vs ++ post)
    by (now rewrite <- !app_assoc).
  rewrite getUint8_app by (rewrite length_app; simpl length; lia).
  rewrite !byte_value_of by lia.
  destruct (offset + 4 + N >? offset + 4 + N + byteLength post) eqn:E2;
    [apply Z.gtb_lt in E2; lia|].
  replace ((pre ++ [x00; reserved; byte_of A]) ++ byte_of N :: vs ++ post)
    with ((pre ++ [x00; reserved; byte_of A; byte_of N]) ++ vs ++ post)
    by (now rewrite <- !app_assoc).
  subst N. rewrite assemble_bytes by (rewrite length_app; simpl length; lia).
  reflexivity.
Qed.

(** Inside the view the value loop cannot throw. *)
Lemma for_range_inside {A} (g : A -> Z -> A) (dataView : list byte) (base : Z) :
  forall (n : nat) (i : Z) (acc : A),
    0 <= base + i -> base + i + Z.of_nat n <= byteLength dataView ->
    exists r,
      for_range n i
        (fun i a =>
           match getUint8 dataView (base + i) with
           | Some b => Some (g a b)
           | None => None
           end) acc = Some r.
Proof.
  induction n as [|n IH]; intros i acc H0 H1.
  - now exists acc.
  - cbn [for_range].
    destruct (getUint8_inside dataView (base + i)) as (b & Hb & _); [lia|].
    rewrite Hb. apply IH; lia.
Qed.

Lemma assemble_inside (dataView : list byte) (offset registerSize : Z) :
  0 <= offset -> 0 <= registerSize ->
  offset + 4 + registerSize <= byteLength dataView ->
  exists v, assemble dataView offset registerSize = Some v.
Proof.
  intros H0 H1 H2. unfold assemble.
  destruct (registerSize >? 4).
  - destruct (for_range_inside (fun a b => big_or (big_shl a 8) b) dataView
                (offset + 4) (Z.to_nat registerSize) 0 0) as [r Hr]; [lia..|].
    rewrite Hr. now eexists.
  - destruct (for_range_inside (fun a b => js_or (js_shl a 8) b) dataView
                (offset + 4) (Z.to_nat registerSize) 0 0) as [r Hr]; [lia..|].
    rewrite Hr. now eexists.
Qed.

(** One pass through the loop body, at an offset inside the view: the scan
    moves on by one byte, or by a whole record, or leaves the loop. *)
Lemma scan_body_progress (dataView : list byte) offset updates :
  0 <= offset < byteLength dataView ->
  (exists b, getUint8 dataView offset = Some b /\ b <> 0 /\
             scan_body dataView offset updates = Continue (offset + 1) updates)
  \/ (exists A N v,
        getUint8 dataView offset = Some 0 /\
        getUint8 dataView (offset + 2) = Some A /\
        getUint8 dataView (offset + 3) = Some N /\
        0 <= N /\ offset + 4 + N <= byteLength dataView /\
        scan_body dataView offset updates
        = Continue (offset + 4 + N) (updates ++ [mkUpdate A v]))
  \/ (getUint8 dataView offset = Some 0 /\
      scan_body dataView offset updates = Break updates).
Proof.
  intros H. unfold scan_body.
  destruct (getUint8_inside dataView offset H) as (b & Hb & _). rewrite Hb.
  destruct (byte_value b =? 0) eqn:E; cbn [negb].
  2:{ left. exists (byte_value b). apply Z.eqb_neq in E. auto. }
  apply Z.eqb_eq in E. rewrite E. right.
  destruct (offset + 4 >? byteLength dataView) eqn:E1; [now right|].
  assert (offset + 4 <= byteLength dataView)
    by (destruct (Z.gtb_spec (offset + 4) (byteLength dataView));
        [discriminate|lia]).
  destruct (getUint8_inside dataView (offset + 2)) as (bA & HA & _); [lia|].
  destruct (getUint8_inside dataView (offset + 3)) as (bN & HN & _); [lia|].
  rewrite HA, HN. pose proof (byte_value_range bN) as HbN.
  destruct (offset + 4 + byte_value bN >? byteLength dataView) eqn:E2;
    [now right|].
  assert (offset + 4 + byte_value bN <= byteLength dataView)
    by (destruct (Z.gtb_spec (offset + 4 + byte_value bN)
                    (byteLength dataView)); [discriminate|lia]).
  destruct (assemble_inside dataView offset (byte_value bN)) as [v Hv];
    [lia..|].
  rewrite Hv. left. exists (byte_value bA), (byte_value bN), v.
  repeat split; auto; lia.
Qed.

(** The loop ends, without exception, whatever the bytes: the distance to
    the end of the view bounds the number of passes. *)
Lemma scan_loop_total (dataView : list byte) :
  forall (fuel : nat) offset updates,
    0 <= offset ->
    Z.max 0 (byteLength dataView - offset) < Z.of_nat fuel ->
    exists more,
      scan_loop fuel dataView offset updates = Some (Updates (updates ++ more)).
Proof.
  induction fuel as [|fuel IH]; intros offset updates H0 Hf.
  - lia.
  - cbn [scan_loop].
    destruct (offset <? byteLength dataView) eqn:E.
    2:{ exists []. now rewrite app_nil_r. }
    apply Z.ltb_lt in E.
    destruct (scan_body_progress dataView offset updates (conj H0 E))
      as [(b & _ & _ & ->)|[(A & N & v & _ & _ & _ & HN & _ & ->)|[_ ->]]].
    + apply IH; lia.
    + destruct (IH (offset + 4 + N) (updates ++ [mkUpdate A v]))
        as [more Hm]; [lia..|].
      exists (mkUpdate A v :: more). rewrite Hm.
      now rewrite <- app_assoc.
    + exists []. now rewrite app_nil_r.
Qed.

Lemma decode_total (dataView : list byte) :
  exists updates, decode dataView = Some (Updates updates).
Proof.
  unfold decode.
  destruct (scan_loop_total dataView (S (length dataView)) 0 [])
    as [more H]; [lia|unfold byteLength; lia|].
  now exists more.
Qed.

(** ** Arithmetic of the value loops *)

Lemma lor_shiftl_byte (a b : Z) :
  0 <= b < 256 -> Z.lor (Z.shiftl a 8) b = a * 256 + b.
Proof.
  intros Hb.
  assert (Hland : Z.land (Z.shiftl a 8) b = 0).
  { apply Z.bits_inj'. intros n Hn.
    rewrite Z.land_spec, Z.bits_0.
    destruct (Z.lt_ge_cases n 8) as [Hlt|Hge].
    - now rewrite Z.shiftl_spec_low.
    - rewrite <- (Z.mod_small b (2 ^ 8)) by (change (2 ^ 8) with 256; lia).
      rewrite Z.mod_pow2_bits_high by lia. apply andb_false_r. }
  rewrite <- Z.lxor_lor by exact Hland.
  rewrite <- Z.add_nocarry_lxor by exact Hland.
  rewrite Z.shiftl_mul_pow2 by lia. reflexivity.
Qed.

Lemma be_fold_ge (vs : list byte) (acc : Z) :
  0 <= acc ->
  acc <= fold_left (fun a b => a * 256 + byte_value b) vs acc.
Proof.
  revert acc. induction vs as [|v vs IH]; intros acc H; cbn [fold_left].
  - lia.
  - pose proof (byte_value_range v).
    specialize (IH (acc * 256 + byte_value v)). lia.
Qed.

Lemma be_value_nonneg (vs : list byte) : 0 <= be_value vs.
Proof. apply (be_fold_ge vs 0). lia. Qed.

(** The BigInt loop is exact. *)
Lemma big_fold_exact (vs : list byte) (acc : Z) :
  fold_left (fun a b => big_or (big_shl a 8) (byte_value b)) vs acc
  = fold_left (fun a b => a * 256 + byte_value b) vs acc.
Proof.
  revert acc. induction vs as [|v vs IH]; intros acc; cbn [fold_left].
  - reflexivity.
  - unfold big_or at 2, big_shl at 2.
    rewrite lor_shiftl_byte by apply byte_value_range. apply IH.
Qed.

Lemma big_value_exact (vs : list byte) : big_value vs = be_value vs.
Proof. apply big_fold_exact. Qed.

Lemma ToInt32_small (x : Z) : - 2^31 <= x < 2^31 -> ToInt32 x = x.
Proof.
  intros H. unfold ToInt32.
  change (2 ^ 31) with 2147483648 in *. change (2 ^ 32) with 4294967296.
  destruct (Z.le_gt_cases 0 x) as [Hx|Hx].
  - rewrite Z.mod_small by lia.
    destruct (x >=? 2147483648) eqn:E; [|reflexivity].
    apply Z.geb_le in E. lia.
  - replace (x mod 4294967296) with (x + 4294967296).
    + destruct (x + 4294967296 >=? 2147483648) eqn:E; [lia|].
      rewrite Z.geb_leb in E. apply Z.leb_gt in E. lia.
    + apply Z.mod_unique with (q := -1); lia.
Qed.

(** One pass of the Number loop is exact as long as the result stays below
    [2^31]. *)
Lemma js_step_small (a b : Z) :
  0 <= a -> 0 <= b < 256 -> a * 256 + b < 2^31 ->
  js_or (js_shl a 8) b = a * 256 + b.
Proof.
  intros Ha Hb H. unfold js_or, js_shl.
  change (8 mod 32) with 8. change (2 ^ 31) with 2147483648 in *.
  assert (Hs : Z.shiftl a 8 = a * 256)
    by (rewrite Z.shiftl_mul_pow2 by lia; reflexivity).
  rewrite (ToInt32_small a) by (pow2; lia).
  rewrite !(ToInt32_small (Z.shiftl a 8))
    by (rewrite Hs; pow2; lia).
  rewrite (ToInt32_small b) by (pow2; lia).
  rewrite lor_shiftl_byte by lia.
  apply ToInt32_small. change (2 ^ 31) with 2147483648. lia.
Qed.

Lemma int32_fold_small (vs : list byte) (acc : Z) :
  0 <= acc ->
  fold_left (fun a b => a * 256 + byte_value b) vs acc < 2^31 ->
  fold_left (fun a b => js_or (js_shl a 8) (byte_value b)) vs acc
  = fold_left (fun a b => a * 256 + byte_value b) vs acc.
Proof.
  revert acc. induction vs as [|v vs IH]; intros acc Hacc H;
    cbn [fold_left] in *.
  - reflexivity.
  - pose proof (byte_value_range v) as Hv.
    pose proof (be_fold_ge vs (acc * 256 + byte_value v) ltac:(lia)).
    rewrite js_step_small by (pow2; lia).
    apply IH; lia.
Qed.

(** The Number loop is exact for values below [2^31]. *)
Lemma int32_value_small (vs : list byte) :
  be_value vs < 2^31 -> int32_value vs = be_value vs.
Proof. intros H. apply int32_fold_small; [lia|exact H]. Qed.

(** In general the Number loop yields the denoted number wrapped to a
    signed 32-bit integer. *)
Lemma ToInt32_range (x : Z) : - 2^31 <= ToInt32 x < 2^31.
Proof.
  unfold ToInt32. change (2 ^ 31) with 2147483648.
  change (2 ^ 32) with 4294967296.
  pose proof (Z.mod_pos_bound x 4294967296 ltac:(lia)).
  destruct (x mod 4294967296 >=? 2147483648) eqn:E.
  - apply Z.geb_le in E. lia.
  - rewrite Z.geb_leb in E. apply Z.leb_gt in E. lia.
Qed.

Lemma ToInt32_mod (x : Z) : ToInt32 x mod 2^32 = x mod 2^32.
Proof.
  unfold ToInt32. destruct (x mod 2 ^ 32 >=? 2 ^ 31).
  - replace (x mod 2 ^ 32 - 2 ^ 32) with (x mod 2 ^ 32 + (-1) * 2 ^ 32)
      by ring.
    rewrite Z.mod_add by (pow2; lia).
    apply Z.mod_mod. change (2 ^ 32) with 4294967296. lia.
  - apply Z.mod_mod. change (2 ^ 32) with 4294967296. lia.
Qed.

Lemma ToInt32_eq (x y : Z) :
  x mod 2^32 = y mod 2^32 -> ToInt32 x = ToInt32 y.
Proof. intros H. unfold ToInt32. now rewrite H. Qed.

Lemma ToInt32_idem (x : Z) : ToInt32 (ToInt32 x) = ToInt32 x.
Proof. apply ToInt32_small, ToInt32_range. Qed.

Lemma ToInt32_step (a b : Z) :
  ToInt32 (ToInt32 a * 256 + b) = ToInt32 (a * 256 + b).
Proof.
  apply ToInt32_eq.
  rewrite (Z.add_mod (ToInt32 a * 256)), (Z.mul_mod (ToInt32 a))
    by (pow2; lia).
  rewrite ToInt32_mod.
  rewrite <- Z.mul_mod, <- Z.add_mod
    by (pow2; lia).
  reflexivity.
Qed.

Lemma js_step_wrap (a b : Z) :
  0 <= b < 256 -> js_or (js_shl a 8) b = ToInt32 (a * 256 + b).
Proof.
  intros Hb. unfold js_or, js_shl. change (8 mod 32) with 8.
  rewrite ToInt32_idem.
  rewrite (ToInt32_small b) by (pow2; lia).
  rewrite Z.shiftl_mul_pow2 by lia. change (2 ^ 8) with 256.
  set (w := ToInt32 (ToInt32 a * 256)).
  assert (Hw : w mod 256 = 0).
  { rewrite <- (Z.mod_mod_divide w (2 ^ 32) 256)
      by (exists 16777216; reflexivity).
    unfold w. rewrite ToInt32_mod.
    rewrite Z.mod_mod_divide by (exists 16777216; reflexivity).
    apply Z.mod_mul. lia. }
  assert (Hs : w = Z.shiftl (w / 256) 8).
  { rewrite Z.shiftl_mul_pow2 by lia. change (2 ^ 8) with 256.
    rewrite (Z.div_mod w 256) at 1 by lia. rewrite Hw. ring. }
  rewrite Hs at 1. rewrite lor_shiftl_byte by lia.
  replace (w / 256 * 256) with w
    by (rewrite (Z.div_mod w 256) at 1 by lia; rewrite Hw; ring).
  unfold w. rewrite <- ToInt32_step.
  apply ToInt32_eq.
  rewrite Z.add_mod, ToInt32_mod, <- Z.add_mod
    by (pow2; lia).
  reflexivity.
Qed.

Lemma int32_fold_wrap (vs : list byte) (acc : Z) :
  fold_left (fun a b => js_or (js_shl a 8) (byte_value b)) vs (ToInt32 acc)
  = ToInt32 (fold_left (fun a b => a * 256 + byte_value b) vs acc).
Proof.
  revert acc. induction vs as [|v vs IH]; intros acc; cbn [fold_left].
  - reflexivity.
  - rewrite js_step_wrap by apply byte_value_range.
    rewrite ToInt32_step. apply IH.
Qed.

Lemma int32_value_wrap (vs : list byte) :
  int32_value vs = ToInt32 (be_value vs).
Proof. apply (int32_fold_wrap vs 0). Qed.

Lemma be_fold_lt (vs : list byte) (acc : Z) :
  0 <= acc ->
  fold_left (fun a b => a * 256 + byte_value b) vs acc
  < (acc + 1) * 256 ^ Z.of_nat (length vs).
Proof.
  revert acc. induction vs as [|v vs IH]; intros acc H; cbn [fold_left length].
  - change (256 ^ Z.of_nat 0) with 1. lia.
  - pose proof (byte_value_range v) as Hv.
    specialize (IH (acc * 256 + byte_value v) ltac:(lia)).
    rewrite Nat2Z.inj_succ, Z.pow_succ_r by lia.
    assert (Hp : 0 < 256 ^ Z.of_nat (length vs))
      by (apply Z.pow_pos_nonneg; lia).
    nia.
Qed.

Lemma be_value_lt (vs : list byte) :
  be_value vs < 256 ^ Z.of_nat (length vs).
Proof.
  pose proof (be_fold_lt vs 0 ltac:(lia)) as H. unfold be_value. lia.
Qed.

Lemma length_be_bytes (n : nat) (v : Z) : length (be_bytes n v) = n.
Proof. induction n; cbn [be_bytes length]; congruence. Qed.

(** Reading back the big-endian bytes of a number. *)
Lemma be_fold_bytes (n : nat) (v acc : Z) :
  0 <= v ->
  fold_left (fun a b => a * 256 + byte_value b) (be_bytes n v) acc
  = acc * 256 ^ Z.of_nat n + v mod 256 ^ Z.of_nat n.
Proof.
  intros Hv. revert acc. induction n as [|n IH]; intros acc.
  - cbn [be_bytes fold_left]. change (256 ^ Z.of_nat 0) with 1.
    rewrite Z.mod_1_r. lia.
  - cbn [be_bytes fold_left]. rewrite IH.
    assert (Hp : 0 < 256 ^ Z.of_nat n) by (apply Z.pow_pos_nonneg; lia).
    rewrite byte_value_of by (apply Z.mod_pos_bound; lia).
    rewrite Nat2Z.inj_succ, Z.pow_succ_r by lia.
    rewrite (Z.mul_comm 256 (256 ^ Z.of_nat n)).
    rewrite Z.rem_mul_r by lia. ring.
Qed.

Lemma be_value_bytes (n : nat) (v : Z) :
  0 <= v < 256 ^ Z.of_nat n -> be_value (be_bytes n v) = v.
Proof.
  intros H. unfold be_value. rewrite be_fold_bytes by lia.
  rewrite Z.mod_small by lia. lia.
Qed.

(** ** Conversion of the accumulated BigInt *)

Lemma is_double_small (v : Z) : 0 <= v <= 2^53 -> is_double v.
Proof.
  intros H. destruct (Z.eq_dec v (2^53)) as [->|Hne].
  - exists (2^52), 1. repeat split; try lia; reflexivity.
  - exists v, 0. rewrite Z.pow_0_r. repeat split; lia.
Qed.

Lemma is_double_nonneg (v : Z) : is_double v -> 0 <= v.
Proof.
  intros (m & k & Hk & Hm & ->).
  apply Z.mul_nonneg_nonneg; [lia|]. apply Z.pow_nonneg. lia.
Qed.

(** A number of at most 53 significant bits is not rounded. *)
Lemma round_to_double_exact (v : Z) : is_double v -> round_to_double v = v.
Proof.
  intros (m & k & Hk & Hm & Hv). unfold round_to_double.
  destruct (Z.log2 v + 1 <=? 53) eqn:E; [reflexivity|].
  apply Z.leb_gt in E.
  assert (Hpk : 0 < 2 ^ k) by (apply Z.pow_pos_nonneg; lia).
  assert (Hvpos : 0 < v).
  { destruct (Z.eq_dec m 0) as [->|Hm0].
    - subst v. cbn in E. lia.
    - subst v. apply Z.mul_pos_pos; lia. }
  assert (Hlog : Z.log2 v < 53 + k).
  { apply Z.log2_lt_pow2; [exact Hvpos|].
    rewrite Z.pow_add_r by lia. subst v.
    apply Z.mul_lt_mono_pos_r; lia. }
  set (e := Z.log2 v + 1 - 53) in *.
  assert (He : 0 < e <= k) by (unfold e; lia).
  assert (Hsplit : v = m * 2 ^ (k - e) * 2 ^ e).
  { rewrite <- Z.mul_assoc, <- Z.pow_add_r by lia.
    now replace (k - e + e) with k by lia. }
  assert (Hpe : 0 < 2 ^ e) by (apply Z.pow_pos_nonneg; lia).
  assert (Hq : Z.shiftr v e = m * 2 ^ (k - e)).
  { rewrite Z.shiftr_div_pow2 by lia. rewrite Hsplit at 1.
    apply Z.div_mul. lia. }
  rewrite Hq, !Z.shiftl_mul_pow2 by lia. rewrite <- Hsplit.
  rewrite Z.sub_diag, Z.mul_1_l.
  assert (Hhalf : 0 < 2 ^ (e - 1)) by (apply Z.pow_pos_nonneg; lia).
  destruct (2 ^ (e - 1) <? 0) eqn:E1; [apply Z.ltb_lt in E1; lia|].
  destruct (0 =? 2 ^ (e - 1)) eqn:E2; [apply Z.eqb_eq in E2; lia|].
  cbn [orb andb]. now rewrite <- Hsplit.
Qed.

Lemma Number_of_BigInt_exact (v : Z) :
  is_double v -> v < 2^1024 -> Number_of_BigInt v = Finite v.
Proof.
  intros Hd Hlt. pose proof (is_double_nonneg v Hd) as H0.
  unfold Number_of_BigInt.
  rewrite Z.abs_eq, round_to_double_exact by auto.
  apply Z.ltb_lt in Hlt. rewrite Hlt. f_equal.
  destruct (Z.eq_dec v 0) as [->|Hv]; [reflexivity|].
  rewrite Z.sgn_pos by lia. lia.
Qed.

(** ** Scanning records in context *)

Lemma scan_loop_record (pre vs post : list byte) (reserved : byte) (A N : Z)
    (fuel : nat) updates :
  0 <= A < 256 -> N = Z.of_nat (length vs) -> N < 256 ->
  scan_loop (S fuel) (pre ++ header reserved A N ++ vs ++ post)
    (Z.of_nat (length pre)) updates
  = scan_loop fuel (pre ++ header reserved A N ++ vs ++ post)
      (Z.of_nat (length pre) + 4 + N)
      (updates ++ [mkUpdate A (value_of_bytes vs)]).
Proof.
  intros HA HN HN'. cbn [scan_loop].
  rewrite (scan_body_record pre vs post reserved A N _ updates eq_refl HA HN HN').
  destruct (Z.of_nat (length pre) <?
            byteLength (pre ++ header reserved A N ++ vs ++ post)) eqn:E;
    [reflexivity|].
  apply Z.ltb_ge in E. rewrite !byteLength_app in E.
  unfold byteLength, header in E. simpl length in E. lia.
Qed.

Lemma scan_loop_skip (junk : list byte) :
  Forall (fun b => b <> x00) junk ->
  forall (pre post : list byte) (fuel : nat) updates,
    scan_loop (length junk + fuel) (pre ++ junk ++ post)
      (Z.of_nat (length pre)) updates
    = scan_loop fuel (pre ++ junk ++ post)
        (Z.of_nat (length pre) + Z.of_nat (length junk)) updates.
Proof.
  induction 1 as [|b junk Hb _ IH]; intros pre post fuel updates.
  - cbn [length Nat.add]. now rewrite Z.add_0_r.
  - cbn [length Nat.add scan_loop].
    rewrite <- app_comm_cons.
    rewrite (scan_body_skip pre (junk ++ post) b _ updates eq_refl Hb).
    destruct (Z.of_nat (length pre) <? byteLength (pre ++ b :: junk ++ post))
      eqn:E.
    2:{ apply Z.ltb_ge in E. rewrite byteLength_app in E.
        unfold byteLength in E. simpl length in E. lia. }
    replace (pre ++ b :: junk ++ post) with ((pre ++ [b]) ++ junk ++ post)
      by (now rewrite <- app_assoc).
    replace (Z.of_nat (length pre) + 1) with (Z.of_nat (length (pre ++ [b])))
      by (rewrite length_app; simpl length; lia).
    rewrite IH. f_equal. rewrite length_app. simpl length. lia.
Qed.

Lemma scan_loop_end (dataView : list byte) (fuel : nat) offset updates :
  byteLength dataView <= offset ->
  scan_loop (S fuel) dataView offset updates = Some (Updates updates).
Proof.
  intros H. cbn [scan_loop].
  destruct (offset <? byteLength dataView) eqn:E; [|reflexivity].
  apply Z.ltb_lt in E. lia.
Qed.

(** A buffer that holds exactly one record. *)
Lemma decode_record (reserved : byte) (A N V : Z) :
  0 <= A < 256 -> 0 <= N < 256 ->
  decode (encode_record reserved A N V)
  = Some (Updates [mkUpdate A (value_of_bytes (be_bytes (Z.to_nat N) V))]).
Proof.
  intros HA HN. unfold decode, encode_record.
  set (vs := be_bytes (Z.to_nat N) V).
  assert (Hvs : N = Z.of_nat (length vs))
    by (unfold vs; rewrite length_be_bytes; lia).
  rewrite <- (app_nil_r vs) at 1 2.
  change (header reserved A N ++ vs ++ [])
    with ([] ++ header reserved A N ++ vs ++ []).
  rewrite (scan_loop_record [] vs [] reserved A N _ [] HA Hvs) by lia.
  cbn [app]. rewrite length_app. unfold header at 1. cbn [length Nat.add].
  apply scan_loop_end.
  rewrite !byteLength_app. unfold byteLength, header. simpl length. lia.
Qed.

(** Junk without sentinel value, then a record that fits. *)
Lemma decode_resync (junk vs post : list byte) (reserved : byte) (A N : Z) :
  Forall (fun b => b <> x00) junk ->
  0 <= A < 256 -> N = Z.of_nat (length vs) -> N < 256 ->
  exists later,
    decode (junk ++ header reserved A N ++ vs ++ post)
    = Some (Updates (mkUpdate A (value_of_bytes vs) :: later)).
Proof.
  intros Hj HA HN HN'. unfold decode.
  set (rec := header reserved A N ++ vs ++ post).
  replace (S (length (junk ++ rec)))
    with (length junk + S (length rec))%nat by (rewrite length_app; lia).
  change (junk ++ rec) with ([] ++ junk ++ rec).
  change 0 with (Z.of_nat (length (@nil byte))) at 1.
  rewrite (scan_loop_skip junk Hj [] rec).
  cbn [app length]. change (Z.of_nat 0) with 0. rewrite Z.add_0_l.
  unfold rec.
  rewrite (scan_loop_record junk vs post reserved A N _ [] HA HN HN').
  cbn [app].
  destruct (scan_loop_total (junk ++ header reserved A N ++ vs ++ post)
              (length (header reserved A N ++ vs ++ post))
              (Z.of_nat (length junk) + 4 + N)
              [mkUpdate A (value_of_bytes vs)]) as [later Hl].
  - lia.
  - rewrite !byteLength_app. unfold byteLength, header.
    rewrite !length_app. simpl length. lia.
  - exists later. exact Hl.
Qed.

End TelemetryFacts.

(* ================================================================== *)
(** * The line framers: the claims *)

Section FramerClaims.
Import LineReader.

(** C4 (amended).  For the line reader of the queue-based worker
    ([createLineReader]): whenever the concatenation of the chunks is a
    sequence of lines without delimiter, each followed by the delimiter,
    and then an unterminated remainder without delimiter, the reader
    emits exactly those lines, in order and without the delimiters, and
    then the remainder if it is not empty; and so it does for every other
    way of cutting the same text into chunks. *)
Theorem line_reader_frames_lines
    (lines : list jsstring) (rest : jsstring) (chunks : list jsstring) :
  Forall no_delimiter lines -> no_delimiter rest ->
  concat chunks = terminated lines ++ rest ->
  emitted chunks = Some (lines ++ final_line rest) /\
  (forall chunks',
      concat chunks' = concat chunks -> emitted chunks' = emitted chunks).
Proof.
  intros Hl Hr Hc. split; [now apply emitted_lines|].
  intros chunks' Hc'.
  rewrite (emitted_lines lines rest chunks Hl Hr Hc).
  apply emitted_lines; congruence.
Qed.

(** C6 (amended).  For the line reader of the queue-based worker: when the
    stream has ended and the buffer holds no delimiter, [readLine()]
    returns the buffer as the last line if it is not empty, and [null]
    otherwise; it leaves a reader in which the buffer is empty, and on
    which [readLine()] answers [null] and changes nothing, so that nothing
    more is emitted.  The loop of the earlier worker is left as soon as the
    stream has ended: it emits nothing then, whatever its buffer holds. *)
Theorem end_of_stream (buffer : jsstring) (serialReadBuffer : list byte) :
  no_delimiter buffer ->
  readLine (mk buffer [])
  = (match buffer with [] => None | _ => Some buffer end, mk [] []) /\
  readLine (mk [] []) = (None, mk [] []) /\
  Legacy.readSerialLoop serialReadBuffer [] = Some [].
Proof.
  intros H. split; [|split; reflexivity].
  unfold readLine. cbn [LineReader.buffer reader].
  rewrite (readLine_loop_done buffer H). now destruct buffer.
Qed.

End FramerClaims.

(** C4, on an example: two lines, the first chunk ending inside the
    delimiter. *)
Lemma line_reader_frames_lines_witness :
  (Forall LineReader.no_delimiter [js "ab"; js "c"] /\
   LineReader.no_delimiter [] /\
   concat [js "ab" ++ [CR]; [LF] ++ js "c" ++ CRLF]
   = LineReader.terminated [js "ab"; js "c"] ++ []) /\
  LineReader.emitted [js "ab" ++ [CR]; [LF] ++ js "c" ++ CRLF]
  = Some ([js "ab"; js "c"] ++ LineReader.final_line []).
Proof.
  assert (H : Forall LineReader.no_delimiter [js "ab"; js "c"] /\
              LineReader.no_delimiter [] /\
              concat [js "ab" ++ [CR]; [LF] ++ js "c" ++ CRLF]
              = LineReader.terminated [js "ab"; js "c"] ++ []).
  { split; [|split]; [|reflexivity|reflexivity].
    constructor; [reflexivity|]. constructor; [reflexivity|]. constructor. }
  split; [exact H|].
  exact (proj1 (line_reader_frames_lines [js "ab"; js "c"] []
                  [js "ab" ++ [CR]; [LF] ++ js "c" ++ CRLF]
                  (proj1 H) (proj1 (proj2 H)) (proj2 (proj2 H)))).
Defined.

(** C4, as stated, fails for the framing of the earlier worker: of the
    three lines [a], the empty line and [ b ], it drops the empty one and
    trims the last. *)
Lemma legacy_framing_counterexample :
  Legacy.emitted
    [Legacy.bytes_of (LineReader.terminated [js "a"; []; js " b "])]
  = Some [js "a"; js "b"] /\
  Legacy.emitted
    [Legacy.bytes_of (LineReader.terminated [js "a"; []; js " b "])]
  <> Some [js "a"; []; js " b "].
Proof. split; [reflexivity|discriminate]. Qed.

(** C6, on an example: the stream ends with [abc] in the buffer. *)
Lemma end_of_stream_witness :
  LineReader.no_delimiter (js "abc") /\
  LineReader.readLine (LineReader.mk (js "abc") [])
  = (Some (js "abc"), LineReader.mk [] []).
Proof.
  split; [reflexivity|].
  exact (proj1 (end_of_stream (js "abc") [] eq_refl)).
Defined.

(** C6, as stated, fails for the earlier worker: the stream delivers [abc]
    and ends; the buffer then holds [abc], and nothing is emitted. *)
Lemma legacy_end_of_stream_counterexample :
  Legacy.frame ([] ++ Legacy.bytes_of (js "abc"))
  = Some ([], Legacy.bytes_of (js "abc")) /\
  Legacy.emitted [Legacy.bytes_of (js "abc")] = Some [] /\
  Legacy.emitted [Legacy.bytes_of (js "abc")] <> Some [js "abc"].
Proof. split; [reflexivity|split; [reflexivity|discriminate]]. Qed.

(* ================================================================== *)
(** * The telemetry decoder: the claims *)

Section TelemetryClaims.
Import Telemetry.

(** The value the decoder assembles from the value bytes is the number they
    denote, as long as that number is below [2^31] for up to four bytes,
    and a host number for more. *)
Lemma value_of_bytes_exact (vs : list byte) :
  (Z.of_nat (length vs) <= 4 -> be_value vs < 2^31) ->
  (4 < Z.of_nat (length vs) ->
   is_double (be_value vs) /\ be_value vs < 2^1024) ->
  value_of_bytes vs = Finite (be_value vs).
Proof.
  intros H4 H8. unfold value_of_bytes.
  destruct (Z.of_nat (length vs) >? 4) eqn:E.
  - apply Z.gtb_lt in E. rewrite big_value_exact.
    destruct (H8 E). now apply Number_of_BigInt_exact.
  - assert (Z.of_nat (length vs) <= 4)
      by (destruct (Z.gtb_spec (Z.of_nat (length vs)) 4); [discriminate|lia]).
    now rewrite int32_value_small by auto.
Qed.

(** C2 (amended).  For every address [A], width [N] from 1 to 8 and value
    [V] with [0 <= V < 2^(8N)], where [V < 2^31] if [N <= 4], and [V] is a
    number the host holds exactly (at most 53 significant bits, as every
    [V <= 2^53] is) if [N >= 5]: the decoder, given exactly the encoding of
    the record (sentinel 0, a reserved byte, [A], [N], the [N] big-endian
    bytes of [V]), yields exactly the one update with address [A] and raw
    value [V]. *)
Theorem decoder_round_trip (reserved : byte) (A N V : Z) :
  0 <= A < 256 -> 1 <= N <= 8 -> 0 <= V < 2 ^ (8 * N) ->
  (N <= 4 -> V < 2^31) -> (5 <= N -> is_double V) ->
  decode (encode_record reserved A N V)
  = Some (Updates [mkUpdate A (Finite V)]).
Proof.
  intros HA HN HV H4 H8.
  rewrite decode_record by lia.
  assert (Hbe : be_value (be_bytes (Z.to_nat N) V) = V).
  { apply be_value_bytes. rewrite Z2Nat.id by lia.
    change 256 with (2 ^ 8). rewrite <- Z.pow_mul_r by lia. exact HV. }
  rewrite value_of_bytes_exact; rewrite ?length_be_bytes, ?Z2Nat.id, ?Hbe;
    try lia; auto.
  intros H5. split.
  - apply H8. lia.
  - apply Z.lt_le_trans with (2 ^ (8 * N)); [lia|].
    apply Z.pow_le_mono_r; lia.
Qed.

(** C3, where the code departs from it: a record of width 4 whose first
    value byte has its top bit set.  The bytes [80 00 00 00] denote
    [2147483648]; the decoder yields [-2147483648], the Number loop working
    on signed 32-bit integers.  So it is for all four value bytes that
    denote [2^31] or more: the raw value is the number they denote less
    [2^32]. *)
Theorem width_four_sign_wrap :
  (decode [x00; x00; x05; x04; x80; x00; x00; x00]
   = Some (Updates [mkUpdate 5 (Finite (-2147483648))]) /\
   be_value [x80; x00; x00; x00] = 2147483648) /\
  (forall vs : list byte,
      length vs = 4%nat -> 2^31 <= be_value vs ->
      value_of_bytes vs = Finite (be_value vs - 2^32)).
Proof.
  split; [split; reflexivity|].
  intros vs Hlen Hv. unfold value_of_bytes. rewrite Hlen.
  change (Z.of_nat 4 >? 4) with false. cbv iota.
  rewrite int32_value_wrap. f_equal.
  pose proof (be_value_lt vs) as Hlt. rewrite Hlen in Hlt.
  change (256 ^ Z.of_nat 4) with 4294967296 in Hlt.
  change (2 ^ 31) with 2147483648 in Hv.
  unfold ToInt32. change (2 ^ 32) with 4294967296.
  change (2 ^ 31) with 2147483648.
  rewrite Z.mod_small by lia.
  destruct (be_value vs >=? 2147483648) eqn:E; [reflexivity|].
  rewrite Z.geb_leb in E. apply Z.leb_gt in E. lia.
Qed.

(** C8 (amended).  When the buffer starts with bytes that are all non-zero
    (such as a first record whose sentinel is corrupted and whose other
    bytes are all non-zero), followed by a well-formed record that fits
    in the buffer, the decoder moves over the leading bytes one at a time
    and the record is the first update of the batch. *)
Theorem resynchronization (junk vs post : list byte) (reserved : byte)
    (A N : Z) :
  Forall (fun b => b <> x00) junk ->
  0 <= A < 256 -> N = Z.of_nat (length vs) -> N < 256 ->
  (forall pre b rest updates,
      junk = pre ++ b :: rest ->
      scan_body (junk ++ header reserved A N ++ vs ++ post)
        (Z.of_nat (length pre)) updates
      = Continue (Z.of_nat (length pre) + 1) updates) /\
  exists later,
    decode (junk ++ header reserved A N ++ vs ++ post)
    = Some (Updates (mkUpdate A (value_of_bytes vs) :: later)).
Proof.
  intros Hj HA HN HN'. split.
  - intros pre b rest updates ->.
    rewrite <- app_assoc, <- app_comm_cons.
    apply scan_body_skip; [reflexivity|].
    rewrite Forall_forall in Hj. apply Hj.
    apply in_or_app. right. now left.
  - now apply decode_resync.
Qed.

(** C10.  For every buffer the scan ends, and ends normally, with the
    updates collected.  Each pass through the loop body, at an offset
    inside the buffer, either moves the offset on by one (a byte that is no
    sentinel), or moves it on by four plus the declared width (a decoded
    record), or leaves the loop; it never throws. *)
Theorem scan_terminates (dataView : list byte) :
  (exists updates, decode dataView = Some (Updates updates)) /\
  (forall offset updates,
      0 <= offset < byteLength dataView ->
      (exists b, getUint8 dataView offset = Some b /\ b <> 0 /\
                 scan_body dataView offset updates
                 = Continue (offset + 1) updates)
      \/ (exists A N v,
            getUint8 dataView offset = Some 0 /\
            getUint8 dataView (offset + 2) = Some A /\
            getUint8 dataView (offset + 3) = Some N /\
            0 <= N /\ offset + 4 + N <= byteLength dataView /\
            scan_body dataView offset updates
            = Continue (offset + 4 + N) (updates ++ [mkUpdate A v]))
      \/ (getUint8 dataView offset = Some 0 /\
          scan_body dataView offset updates = Break updates)) /\
  (forall (fuel : nat) offset updates,
      0 <= offset ->
      Z.max 0 (byteLength dataView - offset) < Z.of_nat fuel ->
      exists more,
        scan_loop fuel dataView offset updates
        = Some (Updates (updates ++ more))).
Proof.
  split; [apply decode_total|split].
  - intros offset updates H. now apply scan_body_progress.
  - intros fuel offset updates H0 Hf. now apply scan_loop_total.
Qed.

End TelemetryClaims.

(** C2, on examples: width 2, value [0x1234], address 5; and width 5, the
    40-bit value [0x0123456789], address 9. *)
Lemma decoder_round_trip_witness :
  ((0 <= 5 < 256 /\ 1 <= 2 <= 8 /\ 0 <= 0x1234 < 2 ^ (8 * 2) /\
    0x1234 < 2 ^ 31) /\
   Telemetry.decode (Telemetry.encode_record x00 5 2 0x1234)
   = Some (Telemetry.Updates
             [Telemetry.mkUpdate 5 (Telemetry.Finite 0x1234)])) /\
  ((0 <= 9 < 256 /\ 1 <= 5 <= 8 /\ 0 <= 0x0123456789 < 2 ^ (8 * 5) /\
    Telemetry.is_double 0x0123456789) /\
   Telemetry.decode (Telemetry.encode_record x00 9 5 0x0123456789)
   = Some (Telemetry.Updates
             [Telemetry.mkUpdate 9 (Telemetry.Finite 0x0123456789)])).
Proof.
  assert (Hd : Telemetry.is_double 0x0123456789)
    by (apply is_double_small; cbn; lia).
  split; (split; [repeat split; try exact Hd; cbn; lia|]).
  - apply (decoder_round_trip x00 5 2 0x1234); cbn; lia.
  - apply (decoder_round_trip x00 9 5 0x0123456789);
      try (cbn; lia). intros _. exact Hd.
Defined.

(** C2, as stated, fails: width 7 and the value [2^53 + 1], which no host
    number holds; the decoder yields [2^53]. *)
Lemma decoder_round_trip_counterexample :
  (1 <= 7 <= 8 /\ 0 <= 2 ^ 53 + 1 < 2 ^ (8 * 7)) /\
  Telemetry.decode (Telemetry.encode_record x00 0 7 (2 ^ 53 + 1))
  = Some (Telemetry.Updates
            [Telemetry.mkUpdate 0 (Telemetry.Finite (2 ^ 53))]) /\
  Telemetry.decode (Telemetry.encode_record x00 0 7 (2 ^ 53 + 1))
  <> Some (Telemetry.Updates
             [Telemetry.mkUpdate 0 (Telemetry.Finite (2 ^ 53 + 1))]).
Proof.
  split; [cbn; lia|]. split; [vm_compute; reflexivity|].
  vm_compute. discriminate.
Qed.

(** C8, on an example: three noise bytes, then the record of width 1 with
    value [0xab] at address 7. *)
Lemma resynchronization_witness :
  Forall (fun b => b <> x00) [x01; x09; x05] /\
  exists later,
    Telemetry.decode
      ([x01; x09; x05] ++ Telemetry.header x00 7 1 ++ [xab] ++ [])
    = Some (Telemetry.Updates
              (Telemetry.mkUpdate 7 (Telemetry.value_of_bytes [xab])
                 :: later)).
Proof.
  assert (H : Forall (fun b => b <> x00) [x01; x09; x05])
    by (repeat constructor; discriminate).
  split; [exact H|].
  apply (proj2 (resynchronization [x01; x09; x05] [xab] [] x00 7 1 H
                  ltac:(lia) eq_refl ltac:(lia))).
Defined.

(** C8, as stated, fails: the first record has its sentinel corrupted (01)
    and a zero reserved byte; the scan takes that zero for a sentinel,
    reads a width of 18 and stops.  The later, well-formed record (address
    7, width 1, value [0xab]) is not emitted. *)
Lemma resynchronization_counterexample :
  Telemetry.decode
    ([x01; x00; x05; x02; x12; x34] ++ Telemetry.encode_record x00 7 1 0xab)
  = Some (Telemetry.Updates []) /\
  ~ Telemetry.emits
      ([x01; x00; x05; x02; x12; x34] ++ Telemetry.encode_record x00 7 1 0xab)
      (Telemetry.mkUpdate 7 (Telemetry.Finite 0xab)).
Proof.
  split; [reflexivity|].
  intros (updates & H & Hin). vm_compute in H.
  injection H as <-. destruct Hin.
Qed.

(** C10, on an example: a noise byte, a record, and two bytes too few for
    another one; the pass at offset 1 is one of the three kinds, and the
    scan ends. *)
Lemma scan_terminates_witness :
  (0 <= 1 < Telemetry.byteLength [x07; x00; x00; x03; x01; x2a; x00; x00]) /\
  ((exists b,
       Telemetry.getUint8 [x07; x00; x00; x03; x01; x2a; x00; x00] 1 = Some b /\
       b <> 0 /\
       Telemetry.scan_body [x07; x00; x00; x03; x01; x2a; x00; x00] 1 []
       = Telemetry.Continue (1 + 1) [])
   \/ (exists A N v,
         Telemetry.getUint8 [x07; x00; x00; x03; x01; x2a; x00; x00] 1 = Some 0 /\
         Telemetry.getUint8 [x07; x00; x00; x03; x01; x2a; x00; x00] (1 + 2)
         = Some A /\
         Telemetry.getUint8 [x07; x00; x00; x03; x01; x2a; x00; x00] (1 + 3)
         = Some N /\
         0 <= N /\
         1 + 4 + N
         <= Telemetry.byteLength [x07; x00; x00; x03; x01; x2a; x00; x00] /\
         Telemetry.scan_body [x07; x00; x00; x03; x01; x2a; x00; x00] 1 []
         = Telemetry.Continue (1 + 4 + N) ([] ++ [Telemetry.mkUpdate A v]))
   \/ (Telemetry.getUint8 [x07; x00; x00; x03; x01; x2a; x00; x00] 1 = Some 0 /\
       Telemetry.scan_body [x07; x00; x00; x03; x01; x2a; x00; x00] 1 []
       = Telemetry.Break [])) /\
  (exists updates,
      Telemetry.decode [x07; x00; x00; x03; x01; x2a; x00; x00]
      = Some (Telemetry.Updates updates)).
Proof.
  split; [cbn; lia|]. split.
  - apply (proj1 (proj2 (scan_terminates
                           [x07; x00; x00; x03; x01; x2a; x00; x00])) 1 []).
    cbn. lia.
  - apply (proj1 (scan_terminates [x07; x00; x00; x03; x01; x2a; x00; x00])).
Defined.

(* ================================================================== *)
(** * The telemetry decoder: frames, batches and the transfer loop *)

Section TelemetryMore.
Import Telemetry.

Lemma getUint8_range (dataView : list byte) (i b : Z) :
  getUint8 dataView i = Some b -> 0 <= b < 256.
Proof.
  unfold getUint8. destruct (i <? 0); [discriminate|].
  destruct (nth_error dataView (Z.to_nat i)) as [x|]; [|discriminate].
  cbn. intros [= <-]. apply byte_value_range.
Qed.

(** The value loop assembles the value of the bytes behind the header. *)
Lemma assemble_slice (dataView : list byte) (offset N : Z) :
  0 <= offset -> 0 <= N -> offset + 4 + N <= byteLength dataView ->
  assemble dataView offset N
  = Some (value_of_bytes
            (firstn (Z.to_nat N) (skipn (Z.to_nat (offset + 4)) dataView))).
Proof.
  intros H0 HN Hb. unfold byteLength in Hb.
  set (pre := firstn (Z.to_nat (offset + 4)) dataView).
  set (vs := firstn (Z.to_nat N) (skipn (Z.to_nat (offset + 4)) dataView)).
  set (post := skipn (Z.to_nat N) (skipn (Z.to_nat (offset + 4)) dataView)).
  assert (Hd : dataView = pre ++ vs ++ post).
  { unfold pre, vs, post. now rewrite !firstn_skipn. }
  assert (Hpre : length pre = Z.to_nat (offset + 4))
    by (unfold pre; rewrite length_firstn; lia).
  assert (Hvs : length vs = Z.to_nat N)
    by (unfold vs; rewrite length_firstn, length_skipn; lia).
  rewrite Hd at 1. replace N with (Z.of_nat (length vs)) at 1 by lia.
  apply assemble_bytes. lia.
Qed.

(** A pass of the scan that goes on either skipped one byte or appended
    the update of the record at the offset. *)
Lemma scan_body_continue (dataView : list byte) offset updates o' updates' :
  0 <= offset < byteLength dataView ->
  scan_body dataView offset updates = Continue o' updates' ->
  (o' = offset + 1 /\ updates' = updates) \/
  (exists A vs,
      0 <= A < 256 /\
      o' = offset + 4 + Z.of_nat (length vs) /\
      o' <= byteLength dataView /\
      updates' = updates ++ [mkUpdate A (value_of_bytes vs)]).
Proof.
  intros H. unfold scan_body.
  destruct (getUint8_inside dataView offset H) as (b & Hb & _). rewrite Hb.
  destruct (byte_value b =? 0) eqn:E; cbn [negb].
  2:{ intros [= <- <-]. now left. }
  destruct (offset + 4 >? byteLength dataView) eqn:E1; [discriminate|].
  assert (offset + 4 <= byteLength dataView)
    by (destruct (Z.gtb_spec (offset + 4) (byteLength dataView));
        [discriminate|lia]).
  destruct (getUint8_inside dataView (offset + 2)) as (bA & HA & _); [lia|].
  destruct (getUint8_inside dataView (offset + 3)) as (bN & HN & _); [lia|].
  rewrite HA, HN. pose proof (byte_value_range bN) as HbN.
  destruct (offset + 4 + byte_value bN >? byteLength dataView) eqn:E2;
    [discriminate|].
  assert (offset + 4 + byte_value bN <= byteLength dataView)
    by (destruct (Z.gtb_spec (offset + 4 + byte_value bN)
                    (byteLength dataView)); [discriminate|lia]).
  rewrite assemble_slice by lia. intros [= <- <-]. right.
  exists (byte_value bA),
    (firstn (Z.to_nat (byte_value bN))
       (skipn (Z.to_nat (offset + 4)) dataView)).
  assert (Hlen : Z.of_nat (length (firstn (Z.to_nat (byte_value bN))
                    (skipn (Z.to_nat (offset + 4)) dataView)))
                 = byte_value bN).
  { unfold byteLength in *. rewrite length_firstn, length_skipn. lia. }
  rewrite Hlen. repeat split; auto; try lia; apply byte_value_range.
Qed.

Lemma scan_body_break (dataView : list byte) offset updates updates' :
  scan_body dataView offset updates = Break updates' -> updates' = updates.
Proof.
  unfold scan_body.
  destruct (getUint8 dataView offset) as [b|]; [|discriminate].
  destruct (negb (b =? 0)); [discriminate|].
  destruct (offset + 4 >? byteLength dataView); [now intros [= <-]|].
  destruct (getUint8 dataView (offset + 2)) as [A|]; [|discriminate].
  destruct (getUint8 dataView (offset + 3)) as [N|]; [|discriminate].
  destruct (offset + 4 + N >? byteLength dataView); [now intros [= <-]|].
  destruct (assemble dataView offset N); discriminate.
Qed.

(** What holds of every update of every record that fits in the view holds
    of the whole batch, and the batch has at most one update per four
    bytes scanned. *)
Lemma scan_loop_batch (dataView : list byte) (P : RegisterUpdate -> Prop) :
  (forall A vs, 0 <= A < 256 ->
                Z.of_nat (length vs) + 4 <= byteLength dataView ->
                P (mkUpdate A (value_of_bytes vs))) ->
  forall (fuel : nat) offset updates result,
    0 <= offset ->
    scan_loop fuel dataView offset updates = Some (Updates result) ->
    Forall P updates ->
    Forall P result /\
    4 * Z.of_nat (length result)
    <= 4 * Z.of_nat (length updates) + Z.max 0 (byteLength dataView - offset).
Proof.
  intros HP. induction fuel as [|fuel IH];
    intros offset updates result H0 Hs Hall; [discriminate|].
  cbn [scan_loop] in Hs.
  destruct (offset <? byteLength dataView) eqn:E.
  2:{ injection Hs as <-. split; [exact Hall|lia]. }
  apply Z.ltb_lt in E.
  destruct (scan_body dataView offset updates) as [o' ups'|ups'|] eqn:Eb;
    [|injection Hs as <-|discriminate].
  - destruct (scan_body_continue _ _ _ _ _ (conj H0 E) Eb)
      as [[-> ->]|(A & vs & HA & -> & Hfit & ->)].
    + destruct (IH (offset + 1) updates result ltac:(lia) Hs Hall)
        as [H1 H2].
      split; [exact H1|lia].
    + destruct (IH (offset + 4 + Z.of_nat (length vs))
                  (updates ++ [mkUpdate A (value_of_bytes vs)]) result
                  ltac:(lia) Hs) as [H1 H2].
      { apply Forall_app. split; [exact Hall|].
        constructor; [|constructor]. apply HP; [exact HA|lia]. }
      split; [exact H1|]. rewrite length_app in H2. simpl length in H2. lia.
  - apply scan_body_break in Eb. subst ups'. split; [exact Hall|lia].
Qed.

Lemma length_encode_frame (f : Frame) :
  Z.of_nat (length (encode_frame f)) = 4 + frame_width f.
Proof.
  unfold encode_frame, header, frame_width. rewrite length_app.
  simpl length. lia.
Qed.

(** Frames that follow one another are decoded one after the other. *)
Lemma scan_loop_frames (fs : list Frame) :
  Forall well_formed fs ->
  forall (pre post : list byte) (fuel : nat) updates,
    scan_loop (length fs + fuel)
      (pre ++ concat (map encode_frame fs) ++ post)
      (Z.of_nat (length pre)) updates
    = scan_loop fuel
        (pre ++ concat (map encode_frame fs) ++ post)
        (Z.of_nat (length pre)
         + Z.of_nat (length (concat (map encode_frame fs))))
        (updates ++ map frame_update fs).
Proof.
  induction 1 as [|f fs [HA HN] _ IH]; intros pre post fuel updates.
  - cbn. now rewrite Z.add_0_r, app_nil_r.
  - cbn [map concat length Nat.add].
    replace (pre ++ (encode_frame f ++ concat (map encode_frame fs)) ++ post)
      with (pre ++ header (frame_reserved f) (frame_address f) (frame_width f)
                ++ frame_value f ++ concat (map encode_frame fs) ++ post)
      by (unfold encode_frame; now rewrite <- !app_assoc).
    rewrite (scan_loop_record pre (frame_value f)
               (concat (map encode_frame fs) ++ post) (frame_reserved f)
               (frame_address f) (frame_width f) _ updates HA eq_refl HN).
    replace (pre ++ header (frame_reserved f) (frame_address f) (frame_width f)
                 ++ frame_value f ++ concat (map encode_frame fs) ++ post)
      with ((pre ++ encode_frame f) ++ concat (map encode_frame fs) ++ post)
      by (unfold encode_frame; now rewrite <- !app_assoc).
    replace (Z.of_nat (length pre) + 4 + frame_width f)
      with (Z.of_nat (length (pre ++ encode_frame f)))
      by (rewrite length_app, Nat2Z.inj_add, length_encode_frame; lia).
    rewrite IH. f_equal.
    + rewrite !length_app, !Nat2Z.inj_add. lia.
    + now rewrite <- app_assoc.
Qed.

(** X9.  A transfer made of well-formed frames, one behind the other, is
    decoded to the updates of the frames, in their order. *)
Theorem frames_decode_in_order (fs : list Frame) :
  Forall well_formed fs ->
  decode (concat (map encode_frame fs))
  = Some (Updates (map frame_update fs)).
Proof.
  intros Hwf. unfold decode.
  set (dv := concat (map encode_frame fs)).
  assert (Hlen : (length fs <= length dv)%nat).
  { unfold dv. clear Hwf. induction fs as [|f fs IH]; cbn; [lia|].
    rewrite length_app. pose proof (length_encode_frame f).
    unfold frame_width in *. lia. }
  replace (S (length dv)) with (length fs + S (length dv - length fs))%nat
    by lia.
  pose proof (scan_loop_frames fs Hwf [] [] (S (length dv - length fs)) [])
    as H.
  cbn [app length] in H. rewrite app_nil_r in H. fold dv in H.
  change (Z.of_nat 0) with 0 in H. rewrite H.
  apply scan_loop_end. unfold byteLength. lia.
Qed.

(** A frame cut short: the scan leaves the loop and keeps what it has. *)
Lemma scan_body_truncated (pre : list byte) (f : Frame) (k : nat) updates :
  well_formed f -> (0 < k < length (encode_frame f))%nat ->
  scan_body (pre ++ firstn k (encode_frame f)) (Z.of_nat (length pre)) updates
  = Break updates.
Proof.
  intros [HA HN] Hk. pose proof (length_encode_frame f) as Hlen.
  unfold encode_frame, header in *.
  assert (Hbl : byteLength (pre ++ firstn k
                  ([x00; frame_reserved f; byte_of (frame_address f);
                    byte_of (frame_width f)] ++ frame_value f))
                = Z.of_nat (length pre) + Z.of_nat k).
  { rewrite byteLength_app. unfold byteLength. rewrite length_firstn. lia. }
  unfold scan_body. rewrite Hbl.
  destruct k as [|[|[|[|k]]]]; [lia| | | |];
    cbn [firstn app];
    rewrite (getUint8_app pre _ x00 _ eq_refl);
    change (byte_value x00 =? 0) with true; cbn [negb].
  1-3: match goal with
       | |- context [?a >? ?b] =>
           destruct (Z.gtb_spec a b); [reflexivity|lia]
       end.
  destruct (Z.of_nat (length pre) + 4
            >? Z.of_nat (length pre) + Z.of_nat (S (S (S (S k))))) eqn:E;
    [reflexivity|].
  replace (pre ++ x00 :: frame_reserved f :: byte_of (frame_address f)
               :: byte_of (frame_width f) :: firstn k (frame_value f))
    with ((pre ++ [x00; frame_reserved f]) ++ byte_of (frame_address f)
          :: byte_of (frame_width f) :: firstn k (frame_value f))
    by (now rewrite <- app_assoc).
  rewrite getUint8_app by (rewrite length_app; simpl length; lia).
  replace ((pre ++ [x00; frame_reserved f]) ++ byte_of (frame_address f)
           :: byte_of (frame_width f) :: firstn k (frame_value f))
    with ((pre ++ [x00; frame_reserved f; byte_of (frame_address f)])
          ++ byte_of (frame_width f) :: firstn k (frame_value f))
    by (now rewrite <- !app_assoc).
  rewrite getUint8_app by (rewrite length_app; simpl length; lia).
  unfold frame_width in *.
  rewrite (byte_value_of (Z.of_nat (length (frame_value f)))) by lia.
  destruct (Z.of_nat (length pre) + 4 + Z.of_nat (length (frame_value f))
            >? Z.of_nat (length pre) + Z.of_nat (S (S (S (S k))))) eqn:E2;
    [reflexivity|].
  destruct (Z.gtb_spec
              (Z.of_nat (length pre) + 4 + Z.of_nat (length (frame_value f)))
              (Z.of_nat (length pre) + Z.of_nat (S (S (S (S k))))));
    [discriminate|].
  rewrite length_app in Hk. simpl length in Hk. lia.
Qed.

(** X10.  When the transfer ends inside a frame (in its header or in its
    value), the frame cut short is dropped and the updates of the complete
    frames before it are the batch. *)
Theorem truncated_frame_dropped (fs : list Frame) (f : Frame) (k : nat) :
  Forall well_formed fs -> well_formed f ->
  (0 < k < length (encode_frame f))%nat ->
  decode (concat (map encode_frame fs) ++ firstn k (encode_frame f))
  = Some (Updates (map frame_update fs)).
Proof.
  intros Hwf Hf Hk. unfold decode.
  set (tail := firstn k (encode_frame f)).
  set (body := concat (map encode_frame fs)).
  assert (Hlen : (length fs <= length body)%nat).
  { unfold body. clear Hwf. induction fs as [|g fs IH]; cbn; [lia|].
    rewrite length_app. pose proof (length_encode_frame g).
    unfold frame_width in *. lia. }
  assert (Htail : (0 < length tail)%nat)
    by (unfold tail; rewrite length_firstn; lia).
  rewrite length_app.
  replace (S (length body + length tail))
    with (length fs + S (length body + length tail - length fs))%nat by lia.
  pose proof (scan_loop_frames fs Hwf [] tail
                (S (length body + length tail - length fs)) []) as H.
  cbn [app length] in H. fold body in H.
  change (Z.of_nat 0) with 0 in H. rewrite H. rewrite Z.add_0_l.
  cbn [scan_loop].
  destruct (Z.of_nat (length body) <? byteLength (body ++ tail)) eqn:E.
  2:{ apply Z.ltb_ge in E. rewrite byteLength_app in E.
      unfold byteLength in E. lia. }
  unfold tail. now rewrite scan_body_truncated.
Qed.

(** Rounding takes a number at most to the next power of two. *)
Lemma round_to_double_le (m : Z) :
  0 <= m -> round_to_double m <= 2 ^ (Z.log2 m + 1).
Proof.
  intros Hm. unfold round_to_double.
  pose proof (Z.log2_nonneg m) as Hl.
  destruct (Z.log2 m + 1 <=? 53) eqn:E.
  - destruct (Z.eq_dec m 0) as [->|Hm0]; [cbn; lia|].
    pose proof (Z.log2_spec m ltac:(lia)) as [_ H].
    rewrite <- Z.add_1_r in H. lia.
  - apply Z.leb_gt in E.
    set (e := Z.log2 m + 1 - 53).
    assert (He : 0 < e) by (unfold e; lia).
    assert (Hpe : 0 < 2 ^ e) by (apply Z.pow_pos_nonneg; lia).
    assert (Hq : Z.shiftr m e < 2 ^ 53).
    { rewrite Z.shiftr_div_pow2 by lia.
      apply Z.div_lt_upper_bound; [lia|].
      rewrite <- Z.pow_add_r by lia.
      replace (e + 53) with (Z.succ (Z.log2 m)) by (unfold e; lia).
      assert (Hpos : 0 < m).
      { destruct (Z.eq_dec m 0) as [->|]; [cbn in E; lia|lia]. }
      apply (Z.log2_spec m Hpos). }
    rewrite !Z.shiftl_mul_pow2 by lia.
    replace (Z.log2 m + 1) with (53 + e) by (unfold e; lia).
    rewrite Z.pow_add_r by lia.
    apply Z.mul_le_mono_nonneg_r; [lia|].
    destruct ((1 * 2 ^ (e - 1) <? m - Z.shiftr m e * 2 ^ e)
              || (m - Z.shiftr m e * 2 ^ e =? 1 * 2 ^ (e - 1))
                 && Z.odd (Z.shiftr m e)); lia.
Qed.

(** Up to 127 value bytes give a finite number. *)
Lemma value_of_bytes_finite (vs : list byte) :
  (length vs <= 127)%nat -> exists z, value_of_bytes vs = Finite z.
Proof.
  intros Hlen. unfold value_of_bytes.
  destruct (Z.of_nat (length vs) >? 4); [|now eexists].
  rewrite big_value_exact. unfold Number_of_BigInt.
  pose proof (be_value_nonneg vs) as H0.
  pose proof (be_value_lt vs) as Hlt.
  rewrite Z.abs_eq by exact H0.
  assert (Hr : round_to_double (be_value vs) < 2 ^ 1024).
  { apply Z.le_lt_trans with (2 ^ (Z.log2 (be_value vs) + 1));
      [now apply round_to_double_le|].
    apply Z.pow_lt_mono_r; [lia|lia|].
    destruct (Z.eq_dec (be_value vs) 0) as [->|Hne]; [cbn; lia|].
    assert (Z.log2 (be_value vs) < 8 * Z.of_nat (length vs)).
    { apply Z.log2_lt_pow2; [lia|].
      rewrite Z.pow_mul_r by lia. exact Hlt. }
    lia. }
  apply Z.ltb_lt in Hr. rewrite Hr. now eexists.
Qed.

(** X11.  The batch of one transfer.  For every buffer the scan gives a
    batch; it holds at most one update for every four bytes of the buffer;
    every address is a byte; and when the buffer has at most 64 bytes, as a
    transfer of [transferIn(1, 64)] has, every raw value is a finite
    number. *)
Theorem transfer_batch (dataView : list byte) :
  exists updates,
    decode dataView = Some (Updates updates) /\
    4 * Z.of_nat (length updates) <= byteLength dataView /\
    Forall (fun u => 0 <= address u < 256) updates /\
    (byteLength dataView <= 64 -> Forall is_finite updates).
Proof.
  destruct (decode_total dataView) as [updates Hd].
  exists updates. split; [exact Hd|]. unfold decode in Hd.
  split; [|split].
  - assert (HP : forall A vs, 0 <= A < 256 ->
                   Z.of_nat (length vs) + 4 <= byteLength dataView ->
                   (fun _ : RegisterUpdate => True)
                     (mkUpdate A (value_of_bytes vs))) by auto.
    destruct (scan_loop_batch dataView _ HP _ 0 [] updates
                (Z.le_refl 0) Hd (Forall_nil _)) as [_ H].
    cbn [length] in H. unfold byteLength in *. lia.
  - assert (HP : forall A vs, 0 <= A < 256 ->
                   Z.of_nat (length vs) + 4 <= byteLength dataView ->
                   (fun u => 0 <= address u < 256)
                     (mkUpdate A (value_of_bytes vs))) by auto.
    exact (proj1 (scan_loop_batch dataView _ HP _ 0 [] updates
                    (Z.le_refl 0) Hd (Forall_nil _))).
  - intros H64.
    assert (HP : forall A vs, 0 <= A < 256 ->
                   Z.of_nat (length vs) + 4 <= byteLength dataView ->
                   is_finite (mkUpdate A (value_of_bytes vs))).
    { intros A vs _ Hfit. apply value_of_bytes_finite.
      unfold byteLength in *. lia. }
    exact (proj1 (scan_loop_batch dataView _ HP _ 0 [] updates
                    (Z.le_refl 0) Hd (Forall_nil _))).
Qed.

(** X12.  Up to three value bytes are assembled without loss, whatever they
    are: the raw value is the unsigned number they denote, below [2^24].
    Four value bytes give that number wrapped to a signed 32-bit integer. *)
Theorem narrow_values (vs : list byte) :
  ((length vs <= 3)%nat ->
   value_of_bytes vs = Finite (be_value vs) /\ 0 <= be_value vs < 2 ^ 24) /\
  ((length vs <= 4)%nat ->
   value_of_bytes vs = Finite (ToInt32 (be_value vs)) /\
   - 2 ^ 31 <= ToInt32 (be_value vs) < 2 ^ 31).
Proof.
  pose proof (be_value_nonneg vs) as H0.
  pose proof (be_value_lt vs) as Hlt.
  split; intros Hlen.
  - assert (Hb : be_value vs < 2 ^ 24).
    { apply Z.lt_le_trans with (256 ^ Z.of_nat (length vs)); [exact Hlt|].
      change (2 ^ 24) with (256 ^ 3). apply Z.pow_le_mono_r; lia. }
    split; [|lia].
    apply value_of_bytes_exact; [|lia].
    intros _. apply Z.lt_trans with (2 ^ 24); [exact Hb|reflexivity].
  - split; [|apply ToInt32_range].
    unfold value_of_bytes.
    destruct (Z.of_nat (length vs) >? 4) eqn:E; [apply Z.gtb_lt in E; lia|].
    now rewrite int32_value_wrap.
Qed.

(** A buffer without a zero byte holds no frame. *)
Lemma decode_noise (dataView : list byte) :
  Forall (fun b => b <> x00) dataView ->
  decode dataView = Some (Updates []).
Proof.
  intros H. unfold decode.
  pose proof (scan_loop_skip dataView H [] [] 1 []) as Hs.
  cbn [app length] in Hs. rewrite app_nil_r in Hs.
  change (Z.of_nat 0) with 0 in Hs.
  replace (S (length dataView)) with (length dataView + 1)%nat by lia.
  rewrite Hs. apply scan_loop_end. unfold byteLength. lia.
Qed.

(** X13.  What the transfer loop posts: batches that are never empty, and
    after them at most one error message, which ends the loop.  A transfer
    whose status is not ['ok'], or whose buffer holds no zero byte (the
    empty buffer among them), posts nothing and the loop goes on. *)
Theorem usb_loop_messages (range_error : jsstring)
    (transfers : list (Transfer * bool)) :
  (exists batches tail,
      readUsbLoop range_error transfers = map bulk_data batches ++ tail /\
      Forall (fun batch => batch <> []) batches /\
      (tail = [] \/ exists message, tail = [usb_error message])) /\
  (forall ok data stop_seen,
      ok = false \/ Forall (fun b => b <> x00) data ->
      usb_pass range_error stop_seen (completed ok data) = ([], true)).
Proof.
  split.
  - induction transfers as [|[t stop_seen] transfers IH].
    + exists [], []. cbn. auto.
    + cbn [readUsbLoop]. destruct IH as (batches & tail & Hr & Hb & Ht).
      destruct t as [[|] data|message]; cbn [usb_pass].
      * destruct (decode_total data) as [updates Hd]. rewrite Hd.
        destruct updates as [|u updates]; cbn [length].
        -- change (Z.of_nat 0 >? 0) with false. cbv iota. cbn [app andb].
           destruct stop_seen; cbn [negb].
           ++ exists [], []. cbn. auto.
           ++ exists batches, tail. auto.
        -- replace (Z.of_nat (S (length updates)) >? 0) with true
             by (symmetry; apply Z.gtb_lt; lia).
           cbn [app andb]. destruct stop_seen; cbn [negb].
           ++ exists [u :: updates], []. cbn. repeat split; auto.
              constructor; [discriminate|constructor].
           ++ exists ((u :: updates) :: batches), tail. cbn. rewrite Hr.
              repeat split; auto. constructor; [discriminate|exact Hb].
      * cbn [app andb]. destruct stop_seen; cbn [negb].
        -- exists [], []. cbn. auto.
        -- exists batches, tail. auto.
      * destruct stop_seen; cbn [app andb].
        -- exists [], []. cbn. auto.
        -- exists [], [usb_error (js "Worker USB read error: " ++ message)].
           cbn. repeat split; auto. right. now eexists.
  - intros ok data stop_seen [->|Hn]; [reflexivity|].
    destruct ok; [|reflexivity]. cbn [usb_pass].
    now rewrite (decode_noise data Hn).
Qed.

(** Two frames for the examples: address 5 with the value bytes [12 34],
    and address 7 with no value byte. *)
Lemma sample_frames_well_formed :
  Forall well_formed [mkFrame x00 5 [x12; x34]; mkFrame xff 7 []].
Proof. repeat constructor; cbn; lia. Qed.

(** X9, on an example: the two frames, one behind the other. *)
Lemma frames_decode_in_order_witness :
  Forall well_formed [mkFrame x00 5 [x12; x34]; mkFrame xff 7 []] /\
  decode (concat (map encode_frame
                    [mkFrame x00 5 [x12; x34]; mkFrame xff 7 []]))
  = Some (Updates (map frame_update
                     [mkFrame x00 5 [x12; x34]; mkFrame xff 7 []])).
Proof.
  split; [exact sample_frames_well_formed|].
  apply (frames_decode_in_order _ sample_frames_well_formed).
Defined.

(** X10, on an example: the two frames, then the first five bytes of a frame
    of width 3. *)
Lemma truncated_frame_dropped_witness :
  well_formed (mkFrame x00 9 [x01; x02; x03]) /\
  (0 < 5 < length (encode_frame (mkFrame x00 9 [x01; x02; x03])))%nat /\
  decode (concat (map encode_frame
                    [mkFrame x00 5 [x12; x34]; mkFrame xff 7 []])
          ++ firstn 5 (encode_frame (mkFrame x00 9 [x01; x02; x03])))
  = Some (Updates (map frame_update
                     [mkFrame x00 5 [x12; x34]; mkFrame xff 7 []])).
Proof.
  assert (Hf : well_formed (mkFrame x00 9 [x01; x02; x03]))
    by (split; cbn; lia).
  assert (Hk : (0 < 5 < length (encode_frame
                                  (mkFrame x00 9 [x01; x02; x03])))%nat)
    by (cbn; lia).
  split; [exact Hf|]. split; [exact Hk|].
  apply (truncated_frame_dropped _ _ 5 sample_frames_well_formed Hf Hk).
Defined.

End TelemetryMore.

(* ================================================================== *)
(** * The line framers: every stream *)

Section FramerMore.
Import LineReader.

(** X14.  The line reader of the queue-based worker, on every stream of
    chunks: the reader comes to the end of the stream; the text of the
    stream is the lines it emits, each followed by the delimiter, and a
    remainder that is emitted last unless it is empty; no line it emits
    holds the delimiter.  Nothing is lost and nothing is added. *)
Theorem line_reader_total (chunks : list jsstring) :
  exists lines rest,
    emitted chunks = Some (lines ++ final_line rest) /\
    concat chunks = terminated lines ++ rest /\
    Forall no_delimiter lines /\ no_delimiter rest.
Proof.
  destruct (text_decomposes (concat chunks)) as (lines & rest & Hl & Hr & Hc).
  exists lines, rest. split; [|auto].
  now apply emitted_lines.
Qed.

(** ** The earlier worker *)

Lemma starts_with_LF (hay : jsstring) :
  starts_with [LF] hay
  = match hay with c :: _ => Ascii.eqb LF c | [] => false end.
Proof.
  destruct hay; cbn [starts_with]; [reflexivity|apply andb_true_r].
Qed.

Lemma lastIndexOf_LF_none (text : jsstring) :
  ~ In LF text -> lastIndexOf [LF] text = -1.
Proof.
  induction text as [|c text IH]; intros H; [reflexivity|].
  cbn [lastIndexOf]. rewrite IH by (intros Hin; apply H; now right).
  change (-1 =? -1) with true. cbv iota. rewrite starts_with_LF.
  destruct (Ascii.eqb LF c) eqn:E; [|reflexivity].
  apply Ascii.eqb_eq in E. exfalso. apply H. now left.
Qed.

Lemma lastIndexOf_LF_last (x y : jsstring) :
  ~ In LF y -> lastIndexOf [LF] (x ++ LF :: y) = Z.of_nat (length x).
Proof.
  intros Hy. induction x as [|c x IH].
  - cbn [app lastIndexOf length]. rewrite (lastIndexOf_LF_none y Hy).
    change (-1 =? -1) with true. cbv iota. rewrite starts_with_LF.
    now rewrite Ascii.eqb_refl.
  - cbn [app lastIndexOf length]. rewrite IH.
    destruct (Z.of_nat (length x) =? -1) eqn:E; [apply Z.eqb_eq in E; lia|].
    lia.
Qed.

Lemma split_lf_nonempty (text : jsstring) : Legacy.split_lf text <> [].
Proof.
  induction text as [|c text IH]; cbn [Legacy.split_lf]; [discriminate|].
  destruct (Ascii.eqb c LF); [discriminate|].
  destruct (Legacy.split_lf text); discriminate.
Qed.

(** [split] cuts at every line feed. *)
Lemma split_lf_app (x y : jsstring) :
  Legacy.split_lf (x ++ LF :: y) = Legacy.split_lf x ++ Legacy.split_lf y.
Proof.
  induction x as [|c x IH]; cbn [app Legacy.split_lf].
  - now rewrite Ascii.eqb_refl.
  - destruct (Ascii.eqb c LF); [now rewrite IH|].
    rewrite IH. pose proof (split_lf_nonempty x) as Hne.
    destruct (Legacy.split_lf x); [now contradiction Hne|reflexivity].
Qed.

Lemma trimmed_lines_app (x y : jsstring) :
  Legacy.trimmed_lines (x ++ LF :: y)
  = Legacy.trimmed_lines x ++ Legacy.trimmed_lines y.
Proof.
  unfold Legacy.trimmed_lines. now rewrite split_lf_app, map_app, filter_app.
Qed.

(** A text holds no line feed, or it has a last one. *)
Lemma last_lf_split (text : jsstring) :
  ~ In LF text \/ exists a b, text = a ++ LF :: b /\ ~ In LF b.
Proof.
  induction text as [|c text [IH|(a & b & -> & Hb)]].
  - left. intros [].
  - destruct (ascii_dec c LF) as [->|Hc].
    + right. now exists [], text.
    + left. intros [H|H]; [now apply Hc|now apply IH].
  - right. now exists (c :: a), b.
Qed.

Lemma last_lf_unique (a a' b b' : jsstring) :
  a ++ LF :: b = a' ++ LF :: b' -> ~ In LF b -> ~ In LF b' ->
  a = a' /\ b = b'.
Proof.
  revert a'. induction a as [|c a IH]; intros [|c' a'] H Hb Hb';
    cbn [app] in H.
  - injection H as <-. auto.
  - injection H as <- ->. exfalso. apply Hb. apply in_or_app. right. now left.
  - injection H as -> <-. exfalso. apply Hb'. apply in_or_app. right. now left.
  - injection H as <- H. destruct (IH a' H Hb Hb') as [-> ->]. auto.
Qed.

Lemma firstn_length_app {A} (p q : list A) : firstn (length p) (p ++ q) = p.
Proof. induction p as [|c p IH]; cbn; [reflexivity|now rewrite IH]. Qed.

Lemma skipn_length_app {A} (p q : list A) : skipn (length p) (p ++ q) = q.
Proof. induction p as [|c p IH]; cbn; [reflexivity|exact IH]. Qed.

Lemma substring_prefix (p q : jsstring) :
  substring (p ++ q) 0 (Z.of_nat (length p)) = p.
Proof.
  unfold substring, jslength. rewrite length_app.
  rewrite (Z.max_l 0 0) by lia.
  rewrite (Z.min_l 0) by lia.
  rewrite (Z.max_l (Z.of_nat (length p)) 0) by lia.
  rewrite (Z.min_l (Z.of_nat (length p))) by lia.
  rewrite (Z.min_l 0) by lia. rewrite (Z.max_r 0) by lia.
  rewrite Z.sub_0_r, Nat2Z.id. change (Z.to_nat 0) with O.
  cbn [skipn]. apply firstn_length_app.
Qed.

(** One call of [processTextBuffer] on a buffer without line feed. *)
Lemma frame_no_lf (bytes : list byte) :
  forallb Legacy.is7bit bytes = true ->
  ~ In LF (map ascii_of_byte bytes) ->
  Legacy.frame bytes = Some ([], bytes).
Proof.
  intros H7 Hn. unfold Legacy.frame, Legacy.textDecoder_decode.
  rewrite H7, (lastIndexOf_LF_none _ Hn). reflexivity.
Qed.

(** One call of [processTextBuffer] on a buffer with a line feed. *)
Lemma frame_lf (bytes : list byte) (x y : jsstring) :
  forallb Legacy.is7bit bytes = true ->
  map ascii_of_byte bytes = x ++ LF :: y -> ~ In LF y ->
  Legacy.frame bytes
  = Some (Legacy.trimmed_lines x, skipn (S (length x)) bytes).
Proof.
  intros H7 Hd Hy. unfold Legacy.frame, Legacy.textDecoder_decode.
  rewrite H7, Hd, (lastIndexOf_LF_last x y Hy).
  destruct (Z.of_nat (length x) =? -1) eqn:E; [apply Z.eqb_eq in E; lia|].
  rewrite substring_prefix.
  replace (x ++ LF :: y) with ((x ++ [LF]) ++ y) by (now rewrite <- app_assoc).
  replace (Z.of_nat (length x) + 1) with (Z.of_nat (length (x ++ [LF])))
    by (rewrite length_app; cbn [length]; lia).
  rewrite substring_prefix. unfold Legacy.encoded_length, jslength.
  rewrite Nat2Z.id, length_app. cbn [length].
  now replace (length x + 1)%nat with (S (length x)) by lia.
Qed.

(** The loop of the earlier worker over a stream, from a buffer without
    line feed. *)
Lemma legacy_loop_lines (chunks : list (list byte)) :
  forall serialReadBuffer,
    forallb Legacy.is7bit (serialReadBuffer ++ concat chunks) = true ->
    ~ In LF (map ascii_of_byte serialReadBuffer) ->
    (forall a b,
        map ascii_of_byte (serialReadBuffer ++ concat chunks) = a ++ LF :: b ->
        ~ In LF b ->
        Legacy.readSerialLoop serialReadBuffer chunks
        = Some (Legacy.trimmed_lines a)) /\
    (~ In LF (map ascii_of_byte (serialReadBuffer ++ concat chunks)) ->
     Legacy.readSerialLoop serialReadBuffer chunks = Some []).
Proof.
  induction chunks as [|value chunks IH]; intros buf H7 Hbuf.
  - cbn [concat Legacy.readSerialLoop]. rewrite app_nil_r. split; [|auto].
    intros a b Hd Hb. exfalso. apply Hbuf. rewrite Hd.
    apply in_or_app. right. now left.
  - cbn [concat Legacy.readSerialLoop] in H7 |- *.
    rewrite app_assoc in H7 |- *.
    assert (H7' := H7). rewrite forallb_app in H7'.
    apply andb_prop in H7' as [H7a H7b].
    destruct (last_lf_split (map ascii_of_byte (buf ++ value)))
      as [Hno|(x & y & Hxy & Hy)].
    + rewrite (frame_no_lf _ H7a Hno).
      destruct (IH (buf ++ value) H7 Hno) as [IH1 IH2]. split.
      * intros a b Hd Hb. now rewrite (IH1 a b Hd Hb).
      * intros Hn. now rewrite (IH2 Hn).
    + rewrite (frame_lf _ x y H7a Hxy Hy).
      set (buf' := skipn (S (length x)) (buf ++ value)).
      assert (Hdec : map ascii_of_byte buf' = y).
      { unfold buf'. rewrite <- skipn_map, Hxy.
        replace (x ++ LF :: y) with ((x ++ [LF]) ++ y)
          by (now rewrite <- app_assoc).
        replace (S (length x)) with (length (x ++ [LF]))
          by (rewrite length_app; cbn [length]; lia).
        apply skipn_length_app. }
      assert (H7c : forallb Legacy.is7bit (buf' ++ concat chunks) = true).
      { rewrite forallb_app, H7b, andb_true_r.
        rewrite <- (firstn_skipn (S (length x)) (buf ++ value)) in H7a.
        rewrite forallb_app in H7a. now apply andb_prop in H7a as [_ H7a]. }
      assert (Hbuf' : ~ In LF (map ascii_of_byte buf')) by (now rewrite Hdec).
      destruct (IH buf' H7c Hbuf') as [IH1 IH2].
      assert (HT : map ascii_of_byte ((buf ++ value) ++ concat chunks)
                   = x ++ LF :: map ascii_of_byte (buf' ++ concat chunks)).
      { rewrite (map_app _ (buf ++ value)), Hxy.
        rewrite (map_app _ buf'), Hdec, <- app_assoc. reflexivity. }
      split.
      * intros a b Hd Hb. rewrite HT in Hd.
        destruct (last_lf_split (map ascii_of_byte (buf' ++ concat chunks)))
          as [Hno|(a' & b' & Hab & Hb')].
        -- destruct (last_lf_unique _ _ _ _ Hd Hno Hb) as [<- _].
           rewrite (IH2 Hno). now rewrite app_nil_r.
        -- rewrite Hab in Hd.
           replace (x ++ LF :: a' ++ LF :: b')
             with ((x ++ LF :: a') ++ LF :: b') in Hd
             by (now rewrite <- app_assoc).
           destruct (last_lf_unique _ _ _ _ Hd Hb' Hb) as [<- _].
           rewrite (IH1 a' b' Hab Hb'). now rewrite trimmed_lines_app.
      * intros Hn. exfalso. apply Hn. rewrite HT.
        apply in_or_app. right. now left.
Qed.

(** X15.  The earlier worker, on every stream of 7-bit bytes: the lines
    handled are those of the text before the last line feed of the whole
    stream, trimmed, the empty ones left out, however the stream is cut
    into chunks; what follows the last line feed is never handled; a stream
    without line feed gives no line at all. *)
Theorem legacy_lines_before_last_feed (chunks : list (list byte)) :
  forallb Legacy.is7bit (concat chunks) = true ->
  (forall a b,
      concat chunks = Legacy.bytes_of (a ++ LF :: b) -> ~ In LF b ->
      Legacy.emitted chunks = Some (Legacy.trimmed_lines a)) /\
  (~ In x0a (concat chunks) -> Legacy.emitted chunks = Some []).
Proof.
  intros H7. unfold Legacy.emitted.
  destruct (legacy_loop_lines chunks [] H7 ltac:(intros [])) as [H1 H2].
  cbn [app] in H1, H2. split.
  - intros a b Hc Hb. apply (H1 a b); [|exact Hb].
    rewrite Hc. unfold Legacy.bytes_of. rewrite map_map.
    rewrite <- (map_id (a ++ LF :: b)) at 2.
    apply map_ext. intros c. apply ascii_of_byte_of_ascii.
  - intros Hn. apply H2. intros Hin. apply Hn.
    apply in_map_iff in Hin as (byte & Hb & Hin).
    replace x0a with byte; [exact Hin|].
    rewrite <- (byte_of_ascii_of_byte byte), Hb. reflexivity.
Qed.

End FramerMore.

(** X15, on an example: the stream [ a], line feed, [b], the line feed
    opening the second chunk. *)
Lemma legacy_lines_before_last_feed_witness :
  (forallb Legacy.is7bit
     (concat [Legacy.bytes_of (js " a"); Legacy.bytes_of (LF :: js "b")])
   = true /\
   concat [Legacy.bytes_of (js " a"); Legacy.bytes_of (LF :: js "b")]
   = Legacy.bytes_of (js " a" ++ LF :: js "b") /\
   ~ In LF (js "b")) /\
  Legacy.emitted [Legacy.bytes_of (js " a"); Legacy.bytes_of (LF :: js "b")]
  = Some (Legacy.trimmed_lines (js " a")).
Proof.
  assert (Hb : ~ In LF (js "b")) by (intros [H|[]]; discriminate H).
  split; [split; [reflexivity|split; [reflexivity|exact Hb]]|].
  exact (proj1 (legacy_lines_before_last_feed
                  [Legacy.bytes_of (js " a"); Legacy.bytes_of (LF :: js "b")]
                  eq_refl)
           (js " a") (js "b") eq_refl Hb).
Defined.

(* ================================================================== *)
(** * The serial loop: the line feed inside a line *)

Section SerialLoopMore.

Variable Num : Type.
Variable number_truthy : Num -> bool.
Variable number_toString : Num -> jsstring.
Variable JSON_parse : jsstring -> option (JsValue Num).

Lemma indexOf_LF_none (text : jsstring) :
  ~ In LF text -> indexOf [LF] text = -1.
Proof.
  induction text as [|c text IH]; intros H; [reflexivity|].
  assert (E : starts_with [LF] (c :: text) = false).
  { rewrite starts_with_LF. apply Ascii.eqb_neq. intros <-. apply H. now left. }
  rewrite (indexOf_cons_miss _ _ _ E).
  rewrite IH by (intros Hin; apply H; now right). reflexivity.
Qed.

Lemma indexOf_LF_first (a b : jsstring) :
  ~ In LF a -> indexOf [LF] (a ++ LF :: b) = Z.of_nat (length a).
Proof.
  induction a as [|c a IH]; intros H.
  - cbn [app length]. apply indexOf_hit. rewrite starts_with_LF.
    apply Ascii.eqb_refl.
  - cbn [app length].
    assert (E : starts_with [LF] (c :: a ++ LF :: b) = false).
    { rewrite starts_with_LF. apply Ascii.eqb_neq. intros <-.
      apply H. now left. }
    rewrite (indexOf_cons_miss _ _ _ E).
    rewrite IH by (intros Hin; apply H; now right).
    destruct (Z.of_nat (length a) =? -1) eqn:E1; [apply Z.eqb_eq in E1; lia|].
    lia.
Qed.

(** [line.replace("\n", '')] takes out the first line feed and no other. *)
Lemma replace_first_LF (a b : jsstring) :
  ~ In LF a -> replace_first [LF] [] (a ++ LF :: b) = a ++ b.
Proof.
  intros H. unfold replace_first. rewrite (indexOf_LF_first a b H).
  destruct (Z.of_nat (length a) =? -1) eqn:E; [apply Z.eqb_eq in E; lia|].
  rewrite slice_prefix
    by (unfold jslength; rewrite length_app; cbn [length]; lia).
  rewrite slice_from_suffix
    by (unfold jslength; rewrite length_app; cbn [length]; lia).
  rewrite Nat2Z.id, firstn_length_app. cbn [app]. f_equal.
  replace (a ++ LF :: b) with ((a ++ [LF]) ++ b) by (now rewrite <- app_assoc).
  replace (Z.to_nat (Z.of_nat (length a) + jslength [LF]))
    with (length (a ++ [LF]))
    by (unfold jslength; rewrite length_app; cbn [length]; lia).
  apply skipn_length_app.
Qed.

(** X16.  The pass of [readSerialLoop] removes the first line feed of the
    line, and only that one: the line [a], line feed, [b], where [a] holds
    no line feed, is logged as [a] followed by [b], line feeds of [b]
    included, and is handled from there on as that text is.  A line
    without line feed is taken as it is. *)
Theorem only_first_line_feed_removed (a b : jsstring)
    (s : Worker.Session Num) :
  ~ In LF a ->
  Worker.line_of (Worker.on_line (a ++ LF :: b)) = [a ++ b] /\
  Worker.line_of (Worker.on_line a) = [a] /\
  Worker.readSerialLoop_line Num number_truthy number_toString JSON_parse
    (a ++ LF :: b) s
  = Worker.bind (Worker.emit (Worker.post_log (a ++ b) Worker.dir_in))
      (fun _ =>
         Worker.bind (Worker.decodeLine Num number_truthy JSON_parse (a ++ b))
           (fun _ => Worker.handleQueue Num number_toString)) s.
Proof.
  intros H. unfold Worker.line_of, Worker.readSerialLoop_line.
  rewrite (replace_first_LF a b H).
  unfold replace_first. rewrite (indexOf_LF_none a H). repeat split.
Qed.

End SerialLoopMore.

(** X16, on an example: a line with two line feeds keeps the second. *)
Lemma only_first_line_feed_removed_witness :
  ~ In LF (js "a") /\
  Worker.line_of (Worker.on_line (js "a" ++ LF :: js "b" ++ [LF]))
  = [js "a" ++ js "b" ++ [LF]].
Proof.
  assert (Ha : ~ In LF (js "a")) by (intros [H|[]]; discriminate H).
  split; [exact Ha|].
  exact (proj1 (only_first_line_feed_removed Z Z_truthy Z_toString
                  sample_parse (js "a") (js "b" ++ [LF]) Worker.initial Ha)).
Defined.
